(** * The provable-value layer of snarkyjs: [src/lib/provable.ts]

    A shallow embedding of the witness engine, the memoization layer, the
    constraint-system analyzer and the array combinator, followed by the
    properties the specification states about them.

    JavaScript code runs against one process-wide mutable state and may
    throw at any point; both are modelled by the monad [M], in which a
    computation maps a state to a completion (normal or thrown) and the
    state it leaves behind. *)

From stdpp Require Import prelude strings pretty.

Open Scope string_scope.
Open Scope list_scope.
Open Scope nat_scope.

(** ** Values of the run time *)

(** A field element is a constant or a circuit variable; a variable is named
    by its index in the backend's allocation order. *)
Inductive Field : Type :=
  | Constant (x : Z)
  | Var (i : nat).

#[global] Instance Field_eq_dec : EqDecision Field.
Proof. solve_decision. Defined.

(** The untyped data of the program ([any] in the signatures): auxiliary
    data of provable values. *)
#[warnings="-register-all"]
Inductive Any : Type :=
  | AUndefined
  | ANumber (z : Z)
  | ABool (b : bool)
  | AArray (l : list Any).

(** [aux?.[i]]: optional chaining on [undefined], array indexing, and
    [undefined] for an index out of range or a property a number or boolean
    does not have. *)
Definition Any_index (aux : Any) (i : nat) : Any :=
  match aux with
  | AArray l => default AUndefined (l !! i)
  | _ => AUndefined
  end.

(** JavaScript truthiness of an optional boolean flag ([!!x]). *)
Definition truthy (x : option bool) : bool := default false x.

Inductive Exn : Type := Error (message : string).

Inductive Completion (A : Type) : Type :=
  | Normal (a : A)
  | Throw (e : Exn).
Arguments Normal {A} a.
Arguments Throw {A} e.

(** ** The process-wide state *)

(** Flags of an execution context frame; every flag is optional. *)
Record SnarkContext : Type := {
  inProver : option bool;
  inCheckedComputation_ : option bool;
  inAnalyze : option bool;
  inWitnessBlock : option bool;
}.

Definition emptySnarkContext : SnarkContext :=
  {| inProver := None; inCheckedComputation_ := None;
     inAnalyze := None; inWitnessBlock := None |}.

(** One slot of the memoization cache. *)
Record Memo : Type := { m_fields : list Field; m_aux : Any }.

(** The object held by a [memoizationContext] frame. [memoized] is a
    reference to a JavaScript array in the store: the array outlives the
    frame and is shared by all frames created with it. *)
Record MemoizationContext : Type := {
  memoized : nat;
  currentIndex : nat;
  blindingValue : option Field;
}.

Record Wire : Type := { row : nat; col : nat }.

(** A gate as the backend serializes it: coefficients are arrays of
    numbers, one array per coefficient. *)
Record JsonGate : Type := {
  typ : string;
  jwires : list Wire;
  jcoeffs : list (list Z);
}.

Record Gate : Type := {
  type_ : string;
  wires : list Wire;
  coeffs : list string;
}.

(** The part of the backend's state the layer can observe: the allocated
    variables (each with the prover's value when there is one), whether
    witness callbacks are evaluated, and the gates recorded so far. *)
Record SnarkyState : Type := {
  variables : list (option Z);
  proverValues : bool;
  recorded : list JsonGate;
  publicInputs : nat;
}.

Record State : Type := {
  snarkContext : list (nat * SnarkContext);
  memoizationContext : list (nat * nat);
  contexts : list MemoizationContext;
  arrays : list (list (option Memo));
  nextId : nat;
  snarky : SnarkyState;
  randomSource : nat → Z;
  randomDrawn : nat;
}.

Definition set_snarkContext (x : list (nat * SnarkContext)) (s : State) : State :=
  {| snarkContext := x; memoizationContext := memoizationContext s;
     contexts := contexts s; arrays := arrays s; nextId := nextId s;
     snarky := snarky s; randomSource := randomSource s;
     randomDrawn := randomDrawn s |}.

Definition set_memoizationContext (x : list (nat * nat)) (s : State) : State :=
  {| snarkContext := snarkContext s; memoizationContext := x;
     contexts := contexts s; arrays := arrays s; nextId := nextId s;
     snarky := snarky s; randomSource := randomSource s;
     randomDrawn := randomDrawn s |}.

Definition set_contexts (x : list MemoizationContext) (s : State) : State :=
  {| snarkContext := snarkContext s; memoizationContext := memoizationContext s;
     contexts := x; arrays := arrays s; nextId := nextId s;
     snarky := snarky s; randomSource := randomSource s;
     randomDrawn := randomDrawn s |}.

Definition set_arrays (x : list (list (option Memo))) (s : State) : State :=
  {| snarkContext := snarkContext s; memoizationContext := memoizationContext s;
     contexts := contexts s; arrays := x; nextId := nextId s;
     snarky := snarky s; randomSource := randomSource s;
     randomDrawn := randomDrawn s |}.

Definition set_nextId (x : nat) (s : State) : State :=
  {| snarkContext := snarkContext s; memoizationContext := memoizationContext s;
     contexts := contexts s; arrays := arrays s; nextId := x;
     snarky := snarky s; randomSource := randomSource s;
     randomDrawn := randomDrawn s |}.

Definition set_snarky (x : SnarkyState) (s : State) : State :=
  {| snarkContext := snarkContext s; memoizationContext := memoizationContext s;
     contexts := contexts s; arrays := arrays s; nextId := nextId s;
     snarky := x; randomSource := randomSource s;
     randomDrawn := randomDrawn s |}.

Definition set_randomDrawn (x : nat) (s : State) : State :=
  {| snarkContext := snarkContext s; memoizationContext := memoizationContext s;
     contexts := contexts s; arrays := arrays s; nextId := nextId s;
     snarky := snarky s; randomSource := randomSource s;
     randomDrawn := x |}.

(** ** The monad of stateful, throwing computations *)

Definition M (A : Type) : Type := State → Completion A * State.

Definition ret {A} (a : A) : M A := λ s, (Normal a, s).

Definition bind {A B} (m : M A) (k : A → M B) : M B :=
  λ s, match m s with
       | (Normal a, s') => k a s'
       | (Throw e, s') => (Throw e, s')
       end.

Definition throw {A} (e : Exn) : M A := λ s, (Throw e, s).

Definition gets {A} (f : State → A) : M A := λ s, (Normal (f s), s).

Definition modify (f : State → State) : M unit := λ s, (Normal tt, f s).

(** [try { body } finally { cleanup }]: the cleanup runs on both
    completions of the body; when the cleanup throws, its exception
    replaces the body's completion. *)
Definition try_finally {A} (body : M A) (cleanup : M unit) : M A :=
  λ s, let (r, s1) := body s in
       match cleanup s1 with
       | (Normal _, s2) => (r, s2)
       | (Throw e, s2) => (Throw e, s2)
       end.

Declare Scope js_scope.
Delimit Scope js_scope with js.
Notation "x <- m ;; k" := (bind m (λ x, k))
  (at level 100, m at next level, right associativity) : js_scope.
Open Scope js_scope.

(** [xs.map(f)] for a callback that may throw: left to right, stopping at
    the first exception. *)
Fixpoint mapM {A B} (f : A → M B) (l : list A) : M (list B) :=
  match l with
  | [] => ret []
  | x :: l' => y <- f x ;; ys <- mapM f l' ;; ret (y :: ys)
  end.

(** ** Collaborators that are not part of [provable.ts] *)

(** [Context.create] of [global-context.js] is not among the sources; the
    specification describes it in section 4.2. A context is a push-down
    stack of frames, held here with the current frame first; frame
    identifiers are drawn from a counter. *)
Definition contextConflictMessage : string :=
  "It seems you are leaving a context that is not the current one".

(** Modelled from the spec: [get] of [Context], the current frame. *)
Definition Context_get {C} (data : list (nat * C)) : option C :=
  snd <$> head data.

(** Modelled from the spec: [has] of [Context], whether a frame is active. *)
Definition Context_has {C} (data : list (nat * C)) : bool :=
  bool_decide (data ≠ []).

(** Modelled from the spec: [leave(id)] of [Context], which must name the
    frame entered most recently and restores the prior frame; leaving out
    of order is an error. *)
Definition Context_leave {C} (id : nat) (data : list (nat * C))
  : option (list (nat * C)) :=
  match data with
  | (id', _) :: rest => if decide (id' = id) then Some rest else None
  | [] => None
  end.

(** Modelled from the spec: the current frame of [snarkContext]; outside
    every frame the context holds its default, the frame with no flag set,
    so that reading the mode requires no active context. *)
Definition currentFrame (s : State) : SnarkContext :=
  default emptySnarkContext (Context_get (snarkContext s)).

(** Modelled from the spec: [snarkContext.get()]. *)
Definition snarkContext_get : M SnarkContext := gets currentFrame.

(** Modelled from the spec: a frame is a shallow overlay of its parent. A
    flag the overrides set wins, a flag they leave undefined is
    inherited. *)
Definition overlay (base over : SnarkContext) : SnarkContext :=
  {| inProver := from_option Some (inProver base) (inProver over);
     inCheckedComputation_ :=
       from_option Some (inCheckedComputation_ base) (inCheckedComputation_ over);
     inAnalyze := from_option Some (inAnalyze base) (inAnalyze over);
     inWitnessBlock := from_option Some (inWitnessBlock base) (inWitnessBlock over) |}.

(** Modelled from the spec: [snarkContext.enter(overrides)], which creates
    a frame by overlaying the current frame with the overrides and returns
    its identifier. *)
Definition snarkContext_enter (overrides : SnarkContext) : M nat :=
  λ s, let id := nextId s in
       (Normal id,
        set_nextId (S id)
          (set_snarkContext
             ((id, overlay (currentFrame s) overrides) :: snarkContext s) s)).

(** Modelled from the spec: [snarkContext.leave(id)]. *)
Definition snarkContext_leave (id : nat) : M unit :=
  λ s, match Context_leave id (snarkContext s) with
       | Some rest => (Normal tt, set_snarkContext rest s)
       | None => (Throw (Error contextConflictMessage), s)
       end.

(** Modelled from the spec: [snarkContext.runWith(overrides, f)]; the frame
    is left on both completions of [f]. *)
Definition snarkContext_runWith {A} (overrides : SnarkContext) (f : M A)
  : M A :=
  id <- snarkContext_enter overrides ;;
  try_finally f (snarkContext_leave id).

(** Modelled from the spec: [inCheckedComputation()] of [proof_system.js],
    which is not among the sources; the mode predicates read the current
    frame. *)
Definition inCheckedComputation : M bool :=
  ctx <- snarkContext_get ;; ret (truthy (inCheckedComputation_ ctx)).

(** Modelled from the spec: [memoizationContext.has()]. *)
Definition memoizationContext_has : M bool :=
  gets (λ s, Context_has (memoizationContext s)).

(** Modelled from the spec: [memoizationContext.get()], a reference to the
    object of the current frame. *)
Definition memoizationContext_get : M nat :=
  λ s, match Context_get (memoizationContext s) with
       | Some ref => (Normal ref, s)
       | None => (Throw (Error contextConflictMessage), s)
       end.

(** Reading and writing the objects and arrays of the store. A reference
    that names nothing cannot arise in the program; the model throws. *)
Definition deref (ref : nat) : M MemoizationContext :=
  λ s, match contexts s !! ref with
       | Some c => (Normal c, s)
       | None => (Throw (Error "dangling reference"), s)
       end.

Definition update (ref : nat) (f : MemoizationContext → MemoizationContext)
  : M unit :=
  modify (λ s, set_contexts (alter f ref (contexts s)) s).

(** [array[i]] on a JavaScript array: [undefined] for a hole and for an
    index past the end. *)
Definition js_lookup {A} (l : list (option A)) (i : nat) : option A :=
  mjoin (l !! i).

(** [array[i] = x]: past the end the array grows, leaving holes. *)
Definition js_assign {A} (l : list (option A)) (i : nat) (x : A)
  : list (option A) :=
  if decide (i < length l) then <[i := Some x]> l
  else l ++ replicate (i - length l) None ++ [Some x].

Definition array_read (ref i : nat) : M (option Memo) :=
  λ s, match arrays s !! ref with
       | Some l => (Normal (js_lookup l i), s)
       | None => (Throw (Error "dangling reference"), s)
       end.

Definition array_write (ref i : nat) (x : Memo) : M unit :=
  modify (λ s, set_arrays (alter (λ l, js_assign l i x) ref (arrays s)) s).

(** Modelled from the spec: the value of a field element, whose class is
    not among the sources: its own for a constant, the prover's for a
    variable, an error for a variable that has none. *)
Definition readField (x : Field) : M Z :=
  match x with
  | Constant z => ret z
  | Var i => λ s, match variables (snarky s) !! i with
                  | Some (Some z) => (Normal z, s)
                  | _ => (Throw (Error "can't evaluate a variable outside the prover"), s)
                  end
  end.

(** Modelled from the spec: [x.toConstant()], the value of [x] as a
    constant. *)
Definition Field_toConstant (x : Field) : M Field :=
  z <- readField x ;; ret (Constant z).

(** Modelled from the spec: [Field.random()], the next value of the random
    source. *)
Definition Field_random : M Field :=
  λ s, (Normal (Constant (randomSource s (randomDrawn s))),
        set_randomDrawn (S (randomDrawn s)) s).

(** Modelled from the spec: the backend allocates [size] fresh variables
    and binds the given values to them in order; a variable without a value
    is a placeholder. *)
Definition allocate (size : nat) (values : list Z) : M (list Field) :=
  λ s, let sn := snarky s in
       let n := length (variables sn) in
       (Normal (Var <$> seq n size),
        set_snarky {| variables := variables sn ++ ((values !!.) <$> seq 0 size);
                      proverValues := proverValues sn;
                      recorded := recorded sn;
                      publicInputs := publicInputs sn |} s).

(** Modelled from the spec: [Snarky.exists(size, compute)], the backend's
    allocation primitive (sections 4.3 and 6). It returns [size] fresh
    variables. When the backend evaluates witnesses it runs the callback
    and binds the values it returns to the new variables in order; a count
    that differs from [size] is not rejected. Otherwise the callback does
    not run and the variables are placeholders. The callback of [witness]
    also assigns the local [proverValue]; that assignment is the second
    component of what the callback returns here, and is [None] when the
    callback did not run. *)
Definition Snarky_exists {X} (size : nat) (compute : M (list Field * X))
  : M (list Field * option X) :=
  evaluates <- gets (λ s, proverValues (snarky s)) ;;
  if evaluates : bool then
    r <- compute ;;
    values <- mapM readField r.1 ;;
    vars <- allocate size values ;;
    ret (vars, Some r.2)
  else
    vars <- allocate size [] ;;
    ret (vars, None).

(** Modelled from the spec: [HashInput] of [provable-snarky.js], which is
    not among the sources: the input of the hash-input codec, here field
    elements and packed field elements with their bit sizes. *)
Record HashInput : Type := {
  h_fields : list Field;
  h_packed : list (Field * nat);
}.

(** Modelled from the spec: [HashInput.empty]. *)
Definition HashInput_empty : HashInput := {| h_fields := []; h_packed := [] |}.

(** Modelled from the spec: [HashInput.append], componentwise. *)
Definition HashInput_append (a b : HashInput) : HashInput :=
  {| h_fields := h_fields a ++ h_fields b;
     h_packed := h_packed a ++ h_packed b |}.

(** ** The provable type descriptor *)

(** The interface [Provable<T>], with the optional methods of
    [ProvableExtended<T, TJson>]: an absent method is [None]. [toAuxiliary]
    accepts a missing value. [check] is handed whatever the caller read,
    which for [array[i]] past the end is [undefined]; reading an entry of
    an array that is itself [undefined] is a [TypeError]. The conversions
    between values, field elements and auxiliary data are functions of
    their arguments; [check] and the optional codecs run in [M]. *)
Record Provable (T TJson : Type) : Type := {
  sizeInFields : nat;
  toFields : T → list Field;
  toAuxiliary : option T → Any;
  fromFields : list Field → Any → T;
  check : option T → M unit;
  toJSON : option (T → M TJson);
  fromJSON : option (TJson → M T);
  toInput : option (T → M HashInput);
}.
Arguments sizeInFields {T TJson} _.
Arguments toFields {T TJson} _ _.
Arguments toAuxiliary {T TJson} _ _.
Arguments fromFields {T TJson} _ _ _.
Arguments check {T TJson} _ _.
Arguments toJSON {T TJson} _.
Arguments fromJSON {T TJson} _.
Arguments toInput {T TJson} _.

(** ** [provable.ts] *)

(** [clone(type, value)] *)
Definition clone {T J} (type : Provable T J) (value : T) : T :=
  let fields := toFields type value in
  let aux := toAuxiliary type (Some value) in
  fromFields type fields aux.

(** [{ ...ctx, inWitnessBlock: true }] *)
Definition withWitnessBlock (ctx : SnarkContext) : SnarkContext :=
  {| inProver := inProver ctx;
     inCheckedComputation_ := inCheckedComputation_ ctx;
     inAnalyze := inAnalyze ctx;
     inWitnessBlock := Some true |}.

(** [Provable.witness(type, compute)] *)
Definition witness {T J} (type : Provable T J) (compute : M T) : M T :=
  ctx <- snarkContext_get ;;
  checked <- inCheckedComputation ;;
  if negb checked || truthy (inWitnessBlock ctx) then
    value <- compute ;;
    ret (clone type value)
  else
    id <- snarkContext_enter (withWitnessBlock ctx) ;;
    r <- try_finally
           (Snarky_exists (sizeInFields type)
              (proverValue <- compute ;;
               let fields := toFields type proverValue in
               ret (fields, proverValue)))
           (snarkContext_leave id) ;;
    let fields := r.1 in
    let proverValue := r.2 in
    let aux := toAuxiliary type proverValue in
    let value := fromFields type fields aux in
    _ <- check type (Some value) ;;
    ret value.

(** [context.currentIndex += 1] *)
Definition advance (c : MemoizationContext) : MemoizationContext :=
  {| memoized := memoized c; currentIndex := currentIndex c + 1;
     blindingValue := blindingValue c |}.

(** The callback [memoizeWitness] hands to [Provable.witness]. *)
Definition memoizedCompute {T J} (type : Provable T J) (compute : M T) : M T :=
  has <- memoizationContext_has ;;
  if negb has then compute
  else
    context <- memoizationContext_get ;;
    c <- deref context ;;
    let memoized_ := memoized c in
    let currentIndex_ := currentIndex c in
    currentValue <- array_read memoized_ currentIndex_ ;;
    currentValue <-
      match currentValue with
      | None =>
          value <- compute ;;
          fields <- mapM Field_toConstant (toFields type value) ;;
          let aux := toAuxiliary type (Some value) in
          let currentValue := {| m_fields := fields; m_aux := aux |} in
          _ <- array_write memoized_ currentIndex_ currentValue ;;
          ret currentValue
      | Some currentValue => ret currentValue
      end ;;
    _ <- update context advance ;;
    ret (fromFields type (m_fields currentValue) (m_aux currentValue)).

(** [memoizeWitness(type, compute)] *)
Definition memoizeWitness {T J} (type : Provable T J) (compute : M T) : M T :=
  witness type (memoizedCompute type compute).

(** [getBlindingValue()] *)
Definition getBlindingValue : M Field :=
  has <- memoizationContext_has ;;
  if negb has then Field_random
  else
    context <- memoizationContext_get ;;
    c <- deref context ;;
    match blindingValue c with
    | None =>
        x <- Field_random ;;
        _ <- update context
               (λ c, {| memoized := memoized c;
                        currentIndex := currentIndex c;
                        blindingValue := Some x |}) ;;
        ret x
    | Some x => ret x
    end.

(** The result of the backend's analysis and of [constraintSystem]. *)
Record JsonConstraintSystem : Type := {
  gates : list JsonGate;
  public_input_size : nat;
}.

Record SnarkyAnalysis : Type := {
  a_rows : nat;
  a_digest : string;
  a_json : JsonConstraintSystem;
}.

Record ConstraintSystem (T : Type) : Type := {
  cs_rows : nat;
  cs_digest : string;
  cs_result : T;
  cs_gates : list Gate;
  cs_publicInputSize : nat;
}.
Arguments cs_rows {T} _.
Arguments cs_digest {T} _.
Arguments cs_result {T} _.
Arguments cs_gates {T} _.
Arguments cs_publicInputSize {T} _.

(** [{ inAnalyze: true, inCheckedComputation: true }] *)
Definition analyzeFlags : SnarkContext :=
  {| inProver := None; inCheckedComputation_ := Some true;
     inAnalyze := Some true; inWitnessBlock := None |}.

Section Analyzer.

(** [bytesToBigInt] of [bigint-helpers.js] and the backend's digest
    function are not among the sources and are left open. *)
Variable bytesToBigInt : list Z → N.
Variable digestOf : list JsonGate → string.

(** [new Uint8Array(coefficient)]: every number is taken modulo 256. *)
Definition Uint8Array (coefficient : list Z) : list Z :=
  (λ x, x `mod` 256)%Z <$> coefficient.

(** [gatesFromJson(cs)]; [x.toString()] of a non-negative bigint is its
    decimal representation. *)
Definition gatesFromJson (cs : JsonConstraintSystem)
  : nat * list Gate :=
  let gates :=
    (λ g, let byteCoeffs := jcoeffs g in
          let coeffs :=
            (λ coefficient,
               let arr := Uint8Array coefficient in
               pretty (bytesToBigInt arr)) <$> byteCoeffs in
          {| type_ := typ g; wires := jwires g; coeffs := coeffs |})
    <$> gates cs in
  (public_input_size cs, gates).

(** Modelled from the spec: [Snarky.constraintSystem(f)], the backend's
    symbolic-execution primitive (sections 4.5 and 6): [f] runs with
    witness calls producing placeholders while the backend records the
    gates emitted; the result is the row count, a digest and the gates.
    The callback of [constraintSystem] assigns the local [result]; that
    assignment is what the callback returns here. *)
Definition Snarky_constraintSystem {X} (f : M X) : M (SnarkyAnalysis * X) :=
  _ <- modify (λ s, set_snarky
                      {| variables := variables (snarky s);
                         proverValues := false;
                         recorded := [];
                         publicInputs := publicInputs (snarky s) |} s) ;;
  x <- f ;;
  sn <- gets snarky ;;
  ret ({| a_rows := length (recorded sn);
          a_digest := digestOf (recorded sn);
          a_json := {| gates := recorded sn;
                       public_input_size := publicInputs sn |} |}, x).

(** [Provable.constraintSystem(f)] *)
Definition constraintSystem {T} (f : M T) : M (ConstraintSystem T) :=
  snarkContext_runWith analyzeFlags
    (r <- Snarky_constraintSystem f ;;
     let a := r.1 in
     let result := r.2 in
     let g := gatesFromJson (a_json a) in
     ret {| cs_rows := a_rows a; cs_digest := a_digest a;
            cs_result := result; cs_gates := g.2;
            cs_publicInputSize := g.1 |}).

End Analyzer.

(** ** The array combinator *)

(** [fields.slice(start, end)] for [start ≤ end]. *)
Definition slice {A} (l : list A) (start end_ : nat) : list A :=
  take (end_ - start) (drop start l).

(** The loop of [fromFields]: [n] iterations from index [i] and [offset]. *)
Fixpoint fromFields_loop {T J} (type : Provable T J) (size : nat)
    (fields : list Field) (aux : Any) (n i offset : nat) : list T :=
  match n with
  | 0 => []
  | S n' =>
      fromFields type (slice fields offset (offset + size)) (Any_index aux i)
      :: fromFields_loop type size fields aux n' (S i) (offset + size)
  end.

(** The loop of [check]: [n] iterations from index [i]. *)
Fixpoint check_loop {T J} (type : Provable T J) (array : list T) (n i : nat)
  : M unit :=
  match n with
  | 0 => ret tt
  | S n' => _ <- check type (array !! i) ;; check_loop type array n' (S i)
  end.

(** [array.reduce((curr, value) => HashInput.append(curr, toInput(value)), curr)] *)
Fixpoint reduce_append {T} (toInput_ : T → M HashInput) (array : list T)
    (curr : HashInput) : M HashInput :=
  match array with
  | [] => ret curr
  | value :: rest =>
      h <- toInput_ value ;;
      reduce_append toInput_ rest (HashInput_append curr h)
  end.

(** [provableArray(elementType, length)] *)
Definition provableArray {T J} (elementType : Provable T J) (length : nat)
  : Provable (list T) (list J) :=
  let type := elementType in
  {| sizeInFields :=
       let elementLength := sizeInFields type in
       elementLength * length;
     toFields := λ array : list T, concat (toFields type <$> array);
     toAuxiliary := λ array : option (list T),
       let array_ : list (option T) :=
         match array with
         | Some array => Some <$> array
         | None => replicate length None
         end in
       AArray (toAuxiliary type <$> array_);
     fromFields := λ fields aux,
       let size := sizeInFields type in
       let n := length in
       fromFields_loop type size fields aux n 0 0;
     check := λ array : option (list T),
       match array, length with
       | Some array, _ => check_loop type array length 0
       | None, 0 => ret tt
       | None, S _ =>
           throw (Error "TypeError: Cannot read properties of undefined")
       end;
     toJSON := Some (λ array,
       match toJSON type with
       | None => throw (Error "circuitArray.toJSON: element type has no toJSON method")
       | Some toJSON_ => mapM toJSON_ array
       end);
     fromJSON := Some (λ json,
       match fromJSON type with
       | None => throw (Error "circuitArray.fromJSON: element type has no fromJSON method")
       | Some fromJSON_ => mapM fromJSON_ json
       end);
     toInput := Some (λ array,
       match toInput type with
       | None => throw (Error "circuitArray.toInput: element type has no toInput method")
       | Some toInput_ => reduce_append toInput_ array HashInput_empty
       end) |}.

(** ** Reading the state *)

Definition checked (s : State) : bool :=
  truthy (inCheckedComputation_ (currentFrame s)).

Definition inBlock (s : State) : bool :=
  truthy (inWitnessBlock (currentFrame s)).

(** The guard of [witness]: the callback is called directly. *)
Definition direct (s : State) : bool := negb (checked s) || inBlock s.

(** The state in which the callback of [witness] runs on the checked
    branch: the witness-block frame is the current one. *)
Definition entered (s : State) : State :=
  set_nextId (S (nextId s))
    (set_snarkContext
       ((nextId s, withWitnessBlock (currentFrame s)) :: snarkContext s) s).

(** ** Laws of descriptors (section 3 of the specification) *)

Section Laws.
Context {T J : Type} (type : Provable T J).

(** The round-trip law at a value. *)
Definition RoundTrip (v : T) : Prop :=
  fromFields type (toFields type v) (toAuxiliary type (Some v)) = v.

(** A value serializes to [sizeInFields] field elements. *)
Definition Sized (v : T) : Prop :=
  length (toFields type v) = sizeInFields type.

(** Values rebuilt from [sizeInFields] field elements serialize to as
    many. *)
Definition ShapeConsistent : Prop :=
  ∀ fields aux, length fields = sizeInFields type →
    length (toFields type (fromFields type fields aux)) = sizeInFields type.
End Laws.

(** The descriptor [type] with another [check]; the other methods are
    those of [type]. *)
Definition withCheck {T J} (type : Provable T J) (check' : option T → M unit)
  : Provable T J :=
  {| sizeInFields := sizeInFields type;
     toFields := toFields type;
     toAuxiliary := toAuxiliary type;
     fromFields := fromFields type;
     check := check';
     toJSON := toJSON type; fromJSON := fromJSON type;
     toInput := toInput type |}.

(** ** Passes under a memoization record *)

(** A pass of a reusable computation is one
    [memoizationContext.runWith(context, f)] call of the callers of the
    memoization layer: a fresh context object is the current frame for the
    duration of [f]. The passes of one computation give their context
    objects the same [memoized] array. *)

(** Modelled from the spec: [memoizationContext.enter(context)]; the frame
    holds a reference to a new object of the store. *)
Definition memoizationContext_enter (context : MemoizationContext) : M nat :=
  λ s, (Normal (nextId s),
        set_nextId (S (nextId s))
          (set_memoizationContext
             ((nextId s, length (contexts s)) :: memoizationContext s)
             (set_contexts (contexts s ++ [context]) s))).

(** Modelled from the spec: [memoizationContext.leave(id)]. *)
Definition memoizationContext_leave (id : nat) : M unit :=
  λ s, match Context_leave id (memoizationContext s) with
       | Some rest => (Normal tt, set_memoizationContext rest s)
       | None => (Throw (Error contextConflictMessage), s)
       end.

(** Modelled from the spec: [memoizationContext.runWith(context, f)]; the
    frame is left on both completions of [f]. *)
Definition memoizationContext_runWith {A} (context : MemoizationContext)
    (f : M A) : M A :=
  id <- memoizationContext_enter context ;;
  try_finally f (memoizationContext_leave id).

(** One [memoizeWitness(type, compute)] call of a pass. *)
Record WitnessCall : Type := {
  wc_T : Type;
  wc_J : Type;
  wc_type : Provable wc_T wc_J;
  wc_compute : M wc_T;
}.

(** Two calls with the same descriptor; the callbacks are unrelated. *)
Inductive sameType : WitnessCall → WitnessCall → Prop :=
  | sameType_intro T J (type : Provable T J) (compute compute' : M T) :
      sameType {| wc_type := type; wc_compute := compute |}
               {| wc_type := type; wc_compute := compute' |}.

(** The call, observed through the field elements of its result. *)
Definition callFields (c : WitnessCall) : M (list Field) :=
  value <- memoizeWitness (wc_type c) (wc_compute c) ;;
  ret (toFields (wc_type c) value).

(** A pass: the calls in order. *)
Definition pass (calls : list WitnessCall) : M (list (list Field)) :=
  mapM callFields calls.

(** ** The analyzer's frame *)

(** The state in which the callback of [constraintSystem] runs: the
    analyzer's frame is the current one and the backend has started a
    symbolic run. *)
Definition analysing (s : State) : State :=
  set_snarky
    {| variables := variables (snarky s); proverValues := false;
       recorded := []; publicInputs := publicInputs (snarky s) |}
    (set_nextId (S (nextId s))
       (set_snarkContext
          ((nextId s, overlay (currentFrame s) analyzeFlags) :: snarkContext s)
          s)).

(** The decoded form of a serialized gate. *)
Definition decoded (bytesToBigInt : list Z → N) (jg : JsonGate) (g : Gate)
  : Prop :=
  type_ g = typ jg ∧ wires g = jwires jg
  ∧ Forall2 (λ bytes str, str = pretty (bytesToBigInt (Uint8Array bytes)))
      (jcoeffs jg) (coeffs g).

(** ** Reading the memoization store *)

(** The array behind reference [a]. *)
Definition memoArray (s : State) (a : nat) : list (option Memo) :=
  default [] (arrays s !! a).

(** The current memoization frame holds the object [ref], whose array is
    [a] and whose cursor is [k]. *)
Definition Scope (s : State) (ref a k : nat) : Prop :=
  Context_get (memoizationContext s) = Some ref
  ∧ ∃ c, contexts s !! ref = Some c ∧ memoized c = a ∧ currentIndex c = k.

(** A computation that leaves the context stacks and the memoization store
    as it found them, on both completions. It may draw random values and
    use the backend. *)
Definition Quiet {A} (m : M A) : Prop :=
  ∀ s, snarkContext (m s).2 = snarkContext s
       ∧ memoizationContext (m s).2 = memoizationContext s
       ∧ contexts (m s).2 = contexts s
       ∧ arrays (m s).2 = arrays s.

(** What a call returns, outside a checked computation, when its slot
    holds [slot]. *)
Definition replay (c : WitnessCall) (slot : Memo) : list Field :=
  toFields (wc_type c)
    (clone (wc_type c)
       (fromFields (wc_type c) (m_fields slot) (m_aux slot))).

(** What the calls return when they find their slots in [l] from cursor
    [k] on. *)
Fixpoint expected (l : list (option Memo)) (k : nat)
    (calls : list WitnessCall) : option (list (list Field)) :=
  match calls with
  | [] => Some []
  | c :: calls' =>
      match js_lookup l k, expected l (S k) calls' with
      | Some slot, Some rs => Some (replay c slot :: rs)
      | _, _ => None
      end
  end.

(** The state in which the callback of [memoizationContext.runWith] runs:
    the new context object is the current frame. *)
Definition scoped (context : MemoizationContext) (s : State) : State :=
  set_nextId (S (nextId s))
    (set_memoizationContext
       ((nextId s, length (contexts s)) :: memoizationContext s)
       (set_contexts (contexts s ++ [context]) s)).

(** The context object of a pass over the array [a]. *)
Definition passContext (a : nat) (blindingValue : option Field)
  : MemoizationContext :=
  {| memoized := a; currentIndex := 0; blindingValue := blindingValue |}.

(** ** Values of field elements *)

(** The value of a field element in a state: its own for a constant, the
    prover's for a variable that has one. *)
Definition fieldValue (s : State) (x : Field) : option Z :=
  match x with
  | Constant z => Some z
  | Var i => mjoin (variables (snarky s) !! i)
  end.

(** A state in which [witness] evaluates its callback: on the direct
    branch, or with a backend that evaluates witnesses. *)
Definition evaluating (s : State) : bool :=
  direct s || proverValues (snarky s).

(** A quiet computation that also leaves the backend's mode and the
    variables allocated so far as they are. *)
Definition Tame {A} (m : M A) : Prop :=
  Quiet m
  ∧ ∀ s, proverValues (snarky (m s).2) = proverValues (snarky s)
         ∧ variables (snarky s) `prefix_of` variables (snarky (m s).2).

(** A descriptor whose values serialize to [sizeInFields] field elements
    and whose [fromFields] keeps the field elements it is given. *)
Definition Lawful {T J} (type : Provable T J) : Prop :=
  (∀ v, Sized type v)
  ∧ ∀ fields aux, length fields = sizeInFields type →
      toFields type (fromFields type fields aux) = fields.

(** The slot holds the constants [zs], as many as the descriptor of the
    call declares. *)
Definition stored (c : WitnessCall) (slot : Memo) (zs : list Z) : Prop :=
  m_fields slot = Constant <$> zs ∧ length zs = sizeInFields (wc_type c).

(** ** Sample inputs *)

(** The descriptor of [Field]: one field element, no auxiliary data. *)
Definition FieldType : Provable Field Z :=
  {| sizeInFields := 1;
     toFields := λ x, [x];
     toAuxiliary := λ _, AArray [];
     fromFields := λ fields _, default (Constant 0) (head fields);
     check := λ _, ret tt;
     toJSON := None; fromJSON := None; toInput := None |}.

(** A boolean held in one field element; [check] asserts that a constant
    is 0 or 1. *)
Definition BoolType : Provable Field bool :=
  {| sizeInFields := 1;
     toFields := λ x, [x];
     toAuxiliary := λ _, AArray [];
     fromFields := λ fields _, default (Constant 0) (head fields);
     check := λ x,
       match x with
       | Some (Constant 0%Z) | Some (Constant 1%Z) | Some (Var _) => ret tt
       | _ => throw (Error "Bool.check: the value is neither 0 nor 1")
       end;
     toJSON := Some (λ x, ret (bool_decide (x = Constant 1)));
     fromJSON := Some (λ b : bool, ret (Constant (if b then 1 else 0)));
     toInput := Some (λ x, ret {| h_fields := []; h_packed := [(x, 1)] |}) |}.

(** An unsigned byte held in one field element as its residue modulo 256:
    rebuilding a number from its field element reduces it. *)
Definition ByteType : Provable Z Z :=
  {| sizeInFields := 1;
     toFields := λ z, [Constant (z `mod` 256)];
     toAuxiliary := λ _, AArray [];
     fromFields := λ fields _,
       match head fields with
       | Some (Constant z) => z
       | _ => 0%Z
       end;
     check := λ _, ret tt;
     toJSON := None; fromJSON := None; toInput := None |}.

(** A state outside every frame, with an evaluating backend and the random
    source [n ↦ 1000 + n]. *)
Definition idle : State :=
  {| snarkContext := []; memoizationContext := []; contexts := [];
     arrays := []; nextId := 0;
     snarky := {| variables := []; proverValues := true; recorded := [];
                  publicInputs := 0 |};
     randomSource := λ n, (1000 + Z.of_nat n)%Z; randomDrawn := 0 |}.

(** Inside a checked computation, as the prover. *)
Definition proving : State :=
  set_nextId 1
    (set_snarkContext
       [(0, {| inProver := Some true; inCheckedComputation_ := Some true;
               inAnalyze := None; inWitnessBlock := None |})] idle).

(** Inside a checked computation and inside a witness block. *)
Definition nested : State :=
  set_nextId 2
    (set_snarkContext
       ((1, withWitnessBlock (currentFrame proving)) :: snarkContext proving)
       proving).

(** Least significant byte first. *)
Definition bytesToBigInt_le (bytes : list Z) : N :=
  Z.to_N (foldr (λ byte x, byte + 256 * x)%Z 0%Z bytes).

(** A sample circuit step: the backend records one gate. *)
Definition emit (g : JsonGate) : M unit :=
  modify (λ s, set_snarky
                 {| variables := variables (snarky s);
                    proverValues := proverValues (snarky s);
                    recorded := recorded (snarky s) ++ [g];
                    publicInputs := publicInputs (snarky s) |} s).

Definition sampleGate : JsonGate :=
  {| typ := "Generic";
     jwires := [{| row := 0; col := 0 |}; {| row := 0; col := 1 |}];
     jcoeffs := [[1; 0]; [255; 1]; []]%Z |}.

(** A state outside every [snarkContext] frame, inside a memoization scope
    with an empty array. *)
Definition recording : State :=
  set_nextId 1
    (set_memoizationContext [(0, 0)]
       (set_contexts
          [{| memoized := 0; currentIndex := 0; blindingValue := None |}]
          (set_arrays [[]] idle))).

(** A state with the array of the store as [s] has it, and a random source
    that shares no value with the one of [idle]. *)
Definition later (s : State) : State :=
  {| snarkContext := []; memoizationContext := []; contexts := [];
     arrays := arrays s; nextId := 0;
     snarky := {| variables := []; proverValues := true; recorded := [];
                  publicInputs := 0 |};
     randomSource := λ n, (- 1 - Z.of_nat n)%Z; randomDrawn := 0 |}.

(** Two witnesses of random values: a field element and a boolean. *)
Definition randomBit : M Field :=
  x <- Field_random ;;
  ret (match x with Constant z => Constant (z `mod` 2) | _ => x end).

Definition sampleCalls : list WitnessCall :=
  [ {| wc_type := FieldType; wc_compute := Field_random |};
    {| wc_type := BoolType; wc_compute := randomBit |};
    {| wc_type := FieldType; wc_compute := Field_random |} ].

(** The same calls with callbacks that cannot be called. *)
Definition sampleCalls' : list WitnessCall :=
  [ {| wc_type := FieldType; wc_compute := throw (Error "called") |};
    {| wc_type := BoolType; wc_compute := throw (Error "called") |};
    {| wc_type := FieldType; wc_compute := throw (Error "called") |} ].

(** A state outside every frame whose store holds one empty array. *)
Definition fresh : State := set_arrays [[]] idle.

(** The state the first pass of [sampleCalls] leaves behind. *)
Definition afterFirstPass : State :=
  Eval vm_compute in
    (memoizationContext_runWith (passContext 0 None) (pass sampleCalls) fresh).2.

(** Inside a checked computation, as the prover, with the store of [s]:
    the mode of a second pass that proves what the first pass built. *)
Definition proverOf (s : State) : State :=
  set_arrays (arrays s) (set_randomDrawn 50 proving).

(** The state a second pass of [sampleCalls'] leaves behind when it runs
    as the prover over the store of the first pass. *)
Definition afterProving : State :=
  Eval vm_compute in
    (memoizationContext_runWith (passContext 0 None) (pass sampleCalls')
       (proverOf afterFirstPass)).2.

(** ** Running provable code *)

(** [{ inCheckedComputation: true }] *)
Definition checkedFlags : SnarkContext :=
  {| inProver := None; inCheckedComputation_ := Some true;
     inAnalyze := None; inWitnessBlock := None |}.

Section Runners.

(** The backend's two batch-execution primitives are not among the sources
    and are left open. *)
Variable Snarky_runAndCheck : M unit → M unit.
Variable Snarky_runUnchecked : M unit → M unit.

(** [Provable.runAndCheck(f)] *)
Definition runAndCheck (f : M unit) : M unit :=
  snarkContext_runWith checkedFlags (Snarky_runAndCheck f).

(** [Provable.runUnchecked(f)] *)
Definition runUnchecked (f : M unit) : M unit :=
  snarkContext_runWith checkedFlags (Snarky_runUnchecked f).

End Runners.

(** The state in which the callback of [snarkContext.runWith] runs. *)
Definition within (overrides : SnarkContext) (s : State) : State :=
  set_nextId (S (nextId s))
    (set_snarkContext
       ((nextId s, overlay (currentFrame s) overrides) :: snarkContext s) s).

(** ** The helper of the foreign-field unit test
    ([src/lib/gadgets/foreign-field.unit-test.ts]) *)

Section ForeignFieldTest.

(** [F.add] and [F.sub] of the finite field [F], which [finite_field.js]
    defines, are not among the sources and are left open. *)
Variable F_add F_sub : Z → Z → Z.

(** The loop of [sum], from index [i] with the running total [sum]. An
    operand read past the end of [xs] is [undefined], which is no bigint:
    the result is then [None]. *)
Fixpoint sum_loop (xs signs : list Z) (i : nat) (sum : Z) : option Z :=
  match signs with
  | [] => Some sum
  | sign :: signs' =>
      x ← xs !! (i + 1);
      sum_loop xs signs' (S i)
        (if decide (sign = 1%Z) then F_add sum x else F_sub sum x)
  end.

(** [sum(xs, signs, F)] *)
Definition sum (xs signs : list Z) : option Z :=
  sum0 ← xs !! 0;
  sum_loop xs signs 0 sum0.

End ForeignFieldTest.

(** The field operations of a prime field of order [p], as residues. *)
Definition add_mod (p x y : Z) : Z := ((x + y) `mod` p)%Z.
Definition sub_mod (p x y : Z) : Z := ((x - y) `mod` p)%Z.

(** [x₀ + Σ signᵢ · xᵢ₊₁] over the integers. *)
Fixpoint signedSum (total : Z) (signs xs : list Z) : Z :=
  match signs, xs with
  | sign :: signs', x :: xs' => signedSum (total + sign * x)%Z signs' xs'
  | _, _ => total
  end.


(** * Properties *)

(** ** The two branches of [witness] *)

Lemma witness_direct {T J} (type : Provable T J) (compute : M T) (s : State) :
  direct s = true →
  witness type compute s = (value <- compute ;; ret (clone type value)) s.
Proof.
  intros Hd. unfold witness, bind at 1 2. simpl.
  fold (checked s). fold (inBlock s). fold (direct s). by rewrite Hd.
Qed.

Lemma overlay_withWitnessBlock (ctx : SnarkContext) :
  overlay ctx (withWitnessBlock ctx) = withWitnessBlock ctx.
Proof. by destruct ctx as [[?|] [?|] [?|] [?|]]. Qed.

Lemma witness_checked {T J} (type : Provable T J) (compute : M T) (s : State) :
  direct s = false →
  witness type compute s =
  (r <- (λ _, try_finally
                (Snarky_exists (sizeInFields type)
                   (proverValue <- compute ;;
                    ret (toFields type proverValue, proverValue)))
                (snarkContext_leave (nextId s)) (entered s)) ;;
   (let value := fromFields type r.1 (toAuxiliary type r.2) in
    _ <- check type (Some value) ;; ret value)) s.
Proof.
  intros Hd. unfold witness, bind at 1 2. simpl.
  fold (checked s). fold (inBlock s). fold (direct s). rewrite Hd.
  cbv beta iota. unfold bind at 1 3, snarkContext_enter. cbv beta zeta.
  rewrite overlay_withWitnessBlock. reflexivity.
Qed.

Lemma leave_entered (s s1 : State) :
  snarkContext s1 = snarkContext (entered s) →
  snarkContext_leave (nextId s) s1
  = (Normal tt, set_snarkContext (snarkContext s) s1).
Proof.
  intros H. unfold snarkContext_leave. rewrite H. simpl.
  by rewrite decide_True.
Qed.

(** ** The backend model leaves the contexts alone *)

Lemma readField_state (x : Field) (s : State) : (readField x s).2 = s.
Proof.
  destruct x as [z|i]; [done|]. simpl.
  by destruct (variables (snarky s) !! i) as [[?|]|].
Qed.

Lemma mapM_readField_state (fields : list Field) (s : State) :
  (mapM readField fields s).2 = s.
Proof.
  induction fields as [|x fields IH]; [done|].
  simpl. unfold bind at 1.
  pose proof (readField_state x s) as Hx.
  destruct (readField x s) as [[z|e] s1]; simpl in Hx; subst s1; [|done].
  unfold bind at 1. specialize IH.
  destruct (mapM readField fields s) as [[zs|e] s1]; simpl in IH; by subst s1.
Qed.

Lemma Snarky_exists_length {X} (size : nat) (compute : M (list Field * X))
    (s s' : State) (r : list Field * option X) :
  Snarky_exists size compute s = (Normal r, s') → length r.1 = size.
Proof.
  unfold Snarky_exists, bind at 1, gets.
  destruct (proverValues (snarky s)).
  - unfold bind at 1. destruct (compute s) as [[c|e] s1]; [|done].
    unfold bind at 1. destruct (mapM readField c.1 s1) as [[zs|e] s2]; [|done].
    unfold bind, allocate, ret. intros [= <- _]. simpl.
    by rewrite length_fmap, length_seq.
  - unfold bind, allocate, ret. intros [= <- _]. simpl.
    by rewrite length_fmap, length_seq.
Qed.

Lemma Snarky_exists_snarkContext {X} (size : nat)
    (compute : M (list Field * X)) (s : State) :
  (∀ s0, snarkContext (compute s0).2 = snarkContext s0) →
  snarkContext (Snarky_exists size compute s).2 = snarkContext s.
Proof.
  intros Hc. unfold Snarky_exists, bind at 1, gets.
  destruct (proverValues (snarky s)); [|done].
  unfold bind at 1. specialize (Hc s).
  destruct (compute s) as [[c|e] s1]; simpl in Hc; [|done].
  unfold bind at 1. pose proof (mapM_readField_state c.1 s1) as Hr.
  destruct (mapM readField c.1 s1) as [[zs|e] s2]; simpl in Hr; subst s2; done.
Qed.

Lemma Snarky_exists_ext {X} (size : nat) (compute compute' : M (list Field * X))
    (s : State) :
  compute s = compute' s →
  Snarky_exists size compute s = Snarky_exists size compute' s.
Proof.
  intros E. unfold Snarky_exists, bind, gets.
  destruct (proverValues (snarky s)); [|done]. by rewrite E.
Qed.

Lemma direct_false (s : State) :
  checked s = true → inBlock s = false → direct s = false.
Proof. unfold direct. by intros -> ->. Qed.

(** ** Outside a checked computation: C3 *)

(** C3. Outside a checked computation, or in a frame that already has
    [inWitnessBlock] set, [witness] calls the callback directly, in the
    state of the call, and returns what [fromFields] rebuilds from
    [toFields] and [toAuxiliary] of the callback's result; an exception of
    the callback is the exception of the call. The state after the call is
    the one the callback left, so for a callback returning [v] it is the
    state of the call: no frame was entered and no variable was allocated.
    [check] does not run: the call is the same with any other [check].
    For a descriptor that obeys the round-trip law at [v] the result is
    [v]. *)
Theorem witness_outside_checked_computation {T J} (type : Provable T J)
    (v : T) (s : State) :
  checked s = false ∨ inBlock s = true →
  (∀ (compute : M T) (x : T) (s1 : State),
     compute s = (Normal x, s1) →
     witness type compute s
     = (Normal (fromFields type (toFields type x) (toAuxiliary type (Some x))),
        s1))
  ∧ (∀ (compute : M T) (e : Exn) (s1 : State),
       compute s = (Throw e, s1) → witness type compute s = (Throw e, s1))
  ∧ witness type (ret v) s
    = (Normal (fromFields type (toFields type v) (toAuxiliary type (Some v))),
       s)
  ∧ (∀ (check' : option T → M unit) (compute : M T),
       witness (withCheck type check') compute s = witness type compute s)
  ∧ (RoundTrip type v → witness type (ret v) s = (Normal v, s)).
Proof.
  intros Hmode.
  assert (direct s = true) as Hd.
  { unfold direct. destruct Hmode as [-> | ->]; [done|]. apply orb_true_r. }
  split; [|split; [|split; [|split]]].
  - intros compute x s1 Hx. rewrite witness_direct by done.
    unfold bind. by rewrite Hx.
  - intros compute e s1 He. rewrite witness_direct by done.
    unfold bind. by rewrite He.
  - by rewrite witness_direct.
  - intros check' compute. by rewrite !witness_direct.
  - intros Hrt. rewrite witness_direct by done.
    unfold bind, ret, clone. by rewrite Hrt.
Qed.

Lemma witness_outside_checked_computation_witness :
  witness ByteType (ret 300%Z) idle = (Normal 44%Z, idle)
  ∧ witness BoolType (ret (Constant 2)) nested = (Normal (Constant 2), nested).
Proof.
  split.
  - destruct (witness_outside_checked_computation ByteType 300%Z idle)
      as (_ & _ & H & _); [by left | exact H].
  - destruct (witness_outside_checked_computation BoolType (Constant 2) nested)
      as (_ & _ & _ & _ & H); [by right | by apply H].
Defined.

(** ** Without a memoization context: C10 *)

Lemma memoizedCompute_no_context {T J} (type : Provable T J) (compute : M T)
    (s : State) :
  memoizationContext s = [] → memoizedCompute type compute s = compute s.
Proof.
  intros H. unfold memoizedCompute, bind at 1, memoizationContext_has, gets.
  by rewrite H.
Qed.

(** C10. When no memoization context is active, [memoizeWitness] is
    [Provable.witness]: same completion, same final state. The callback it
    hands to [witness] is then [compute] itself, so no slot is read or
    written and no cursor moves. *)
Theorem memoizeWitness_without_context {T J} (type : Provable T J)
    (compute : M T) (s : State) :
  memoizationContext s = [] →
  memoizeWitness type compute s = witness type compute s
  ∧ memoizedCompute type compute s = compute s.
Proof.
  intros H. split; [|by apply memoizedCompute_no_context].
  unfold memoizeWitness. destruct (direct s) eqn:Hd.
  - rewrite !witness_direct by done. unfold bind.
    by rewrite memoizedCompute_no_context.
  - rewrite !witness_checked by done. unfold bind at 1 3, try_finally.
    rewrite (Snarky_exists_ext _ _
               (proverValue <- compute ;;
                ret (toFields type proverValue, proverValue))); [done|].
    unfold bind. by rewrite memoizedCompute_no_context.
Qed.

Lemma memoizeWitness_without_context_witness :
  memoizeWitness FieldType Field_random proving
  = witness FieldType Field_random proving
  ∧ memoizedCompute FieldType Field_random proving = Field_random proving.
Proof.
  apply (memoizeWitness_without_context FieldType Field_random proving).
  reflexivity.
Defined.

(** ** Inside a checked computation: C2 and C4 *)

(** C2, as the specification states it: inside a checked computation
    [witness] returns only values on which [check] ran and did not fail.
    It does not hold in a frame that already has [inWitnessBlock] set:
    there [witness] takes the direct branch and [check] does not run. *)
Lemma witness_checked_result_counterexample :
  ¬ (∀ (T J : Type) (type : Provable T J) (compute : M T) (s s' : State)
       (v : T),
       checked s = true →
       witness type compute s = (Normal v, s') →
       (∃ s0, check type (Some v) s0 = (Normal tt, s'))
       ∧ length (toFields type v) = sizeInFields type).
Proof.
  intros H.
  destruct (H _ _ BoolType (ret (Constant 2)) nested nested (Constant 2))
    as [[s0 Hs0] _]; [reflexivity | reflexivity | discriminate Hs0].
Qed.

(** What a returning call of the backend's allocation primitive did. *)
Lemma Snarky_exists_returns {X} (size : nat) (compute : M (list Field * X))
    (s s2 : State) (r : list Field * option X) :
  Snarky_exists size compute s = (Normal r, s2) →
  ∃ (s1 : State) (new : list (option Z)),
    (if proverValues (snarky s)
     then ∃ fields x, compute s = (Normal (fields, x), s1) ∧ r.2 = Some x
     else s1 = s ∧ r.2 = None)
    ∧ r.1 = Var <$> seq (length (variables (snarky s1))) size
    ∧ variables (snarky s2) = variables (snarky s1) ++ new
    ∧ length new = size
    ∧ snarkContext s2 = snarkContext s1.
Proof.
  unfold Snarky_exists, bind, gets.
  destruct (proverValues (snarky s)).
  - destruct (compute s) as [[[fields x]|e] s1] eqn:Hc; [|done].
    cbn [fst snd].
    pose proof (mapM_readField_state fields s1) as Hst.
    destruct (mapM readField fields s1) as [[zs|e] s1'] eqn:Hzs; [|done].
    simpl in Hst. subst s1'. unfold allocate, ret. intros [= <- <-].
    exists s1, ((zs !!.) <$> seq 0 size).
    split; [by eauto|]. split; [done|]. split; [done|].
    split; [by rewrite length_fmap, length_seq|done].
  - unfold allocate, ret. intros [= <- <-].
    exists s, (([] !!.) <$> seq 0 size).
    split; [done|]. split; [done|]. split; [done|].
    split; [by rewrite length_fmap, length_seq|done].
Qed.

(** C2, amended. Inside a checked computation and outside a witness block,
    a value [witness] returns was rebuilt by [fromFields] from
    [sizeInFields] variables that the backend allocated for this call,
    after the callback returned when the backend evaluates witnesses and
    without calling it otherwise, and from the auxiliary data of the
    callback's result (of [undefined] when it was not called); [check] ran
    on that value last, after the allocation and, for a callback that
    leaves the context stack as it found it, in the frame of the caller,
    and completed normally. [witness] does not look at the number of field
    elements: the value serializes to [sizeInFields] of them where the
    descriptor's rebuilt values do. In a frame that already has
    [inWitnessBlock] set, the value is what [fromFields] rebuilds from
    [toFields] and [toAuxiliary] of the callback's result, in the state
    the callback left, and [check] does not run: the call is the same with
    any other [check]. *)
Theorem witness_checked_result {T J} (type : Provable T J) (compute : M T)
    (s s' : State) (v : T) :
  checked s = true →
  witness type compute s = (Normal v, s') →
  (inBlock s = false →
   ∃ (proverValue : option T) (s1 s0 : State) (new : list (option Z)),
     (if proverValues (snarky s)
      then ∃ x, compute (entered s) = (Normal x, s1) ∧ proverValue = Some x
      else s1 = entered s ∧ proverValue = None)
     ∧ v = fromFields type
             (Var <$> seq (length (variables (snarky s1))) (sizeInFields type))
             (toAuxiliary type proverValue)
     ∧ variables (snarky s0) = variables (snarky s1) ++ new
     ∧ length new = sizeInFields type
     ∧ (snarkContext s1 = snarkContext (entered s) →
        snarkContext s0 = snarkContext s)
     ∧ check type (Some v) s0 = (Normal tt, s')
     ∧ (ShapeConsistent type → length (toFields type v) = sizeInFields type))
  ∧ (inBlock s = true →
     (∃ x, compute s = (Normal x, s')
           ∧ v = fromFields type (toFields type x) (toAuxiliary type (Some x)))
     ∧ ∀ check' : option T → M unit,
         witness (withCheck type check') compute s = (Normal v, s')).
Proof.
  intros Hc Hrun. split; intros Hb.
  - rewrite witness_checked in Hrun by by apply direct_false.
    unfold bind at 1, try_finally in Hrun.
    destruct (Snarky_exists _ _ (entered s)) as [[r|e] s2] eqn:Hex.
    2: { by destruct (snarkContext_leave (nextId s) s2) as [[[]|?] ?]. }
    destruct (Snarky_exists_returns _ _ _ _ _ Hex)
      as (s1 & new & Hmode & Hfields & Hvars & Hnew & Hctx).
    unfold snarkContext_leave in Hrun.
    destruct (Context_leave (nextId s) (snarkContext s2)) as [rest|] eqn:Hleave;
      [|done].
    unfold bind, ret in Hrun.
    destruct (check type _ (set_snarkContext rest s2)) as [[[]|?] s3] eqn:Hck;
      [|done].
    injection Hrun as <- <-. rewrite Hfields in Hck |- *.
    exists r.2, s1, (set_snarkContext rest s2), new.
    split.
    { change (proverValues (snarky (entered s)))
        with (proverValues (snarky s)) in Hmode.
      destruct (proverValues (snarky s)); [|done].
      destruct Hmode as (fields & x & Hcompute & Hx). exists x.
      split; [|done]. unfold bind, ret in Hcompute.
      destruct (compute (entered s)) as [[y|e] s4]; [|done].
      by injection Hcompute as _ <- <-. }
    split; [done|]. split; [done|]. split; [done|].
    split.
    { intros Hbal. simpl. rewrite Hctx, Hbal in Hleave. simpl in Hleave.
      rewrite decide_True in Hleave by done. by injection Hleave as <-. }
    split; [done|].
    intros Hshape. apply Hshape. by rewrite length_fmap, length_seq.
  - assert (Hd : direct s = true) by (unfold direct; by rewrite Hb, orb_true_r).
    rewrite witness_direct in Hrun by done. split.
    + unfold bind, ret, clone in Hrun.
      destruct (compute s) as [[x|e] s1]; [|done].
      injection Hrun as <- <-. by exists x.
    + intros check'. by rewrite witness_direct.
Qed.

Lemma witness_checked_result_witness :
  (inBlock proving = false →
   ∃ (proverValue : option Field) (s1 s0 : State) (new : list (option Z)),
     (if proverValues (snarky proving)
      then ∃ x, ret (Constant 7) (entered proving) = (Normal x, s1)
                ∧ proverValue = Some x
      else s1 = entered proving ∧ proverValue = None)
     ∧ Var 0 = fromFields FieldType
                 (Var <$> seq (length (variables (snarky s1)))
                            (sizeInFields FieldType))
                 (toAuxiliary FieldType proverValue)
     ∧ variables (snarky s0) = variables (snarky s1) ++ new
     ∧ length new = sizeInFields FieldType
     ∧ (snarkContext s1 = snarkContext (entered proving) →
        snarkContext s0 = snarkContext proving)
     ∧ check FieldType (Some (Var 0)) s0
       = (Normal tt, (witness FieldType (ret (Constant 7)) proving).2)
     ∧ (ShapeConsistent FieldType →
        length (toFields FieldType (Var 0)) = sizeInFields FieldType))
  ∧ (inBlock proving = true →
     (∃ x, ret (Constant 7) proving
           = (Normal x, (witness FieldType (ret (Constant 7)) proving).2)
           ∧ Var 0 = fromFields FieldType (toFields FieldType x)
                       (toAuxiliary FieldType (Some x)))
     ∧ ∀ check' : option Field → M unit,
         witness (withCheck FieldType check') (ret (Constant 7)) proving
         = (Normal (Var 0), (witness FieldType (ret (Constant 7)) proving).2)).
Proof.
  apply (witness_checked_result FieldType (ret (Constant 7)) proving);
    reflexivity.
Defined.

(** C4. On the checked branch [witness] enters a frame with
    [inWitnessBlock] set, in which the callback runs. Provided the callback
    and [check] leave the context stack as they found it, the stack after
    [witness] is the stack before it on every completion; when the callback
    throws, or the backend throws while binding the values, [witness]
    throws the same exception from a state in which the frame has already
    been left. *)
Theorem witness_frame_unwound {T J} (type : Provable T J) (compute : M T)
    (s : State) :
  checked s = true → inBlock s = false →
  (∀ s0, snarkContext (compute s0).2 = snarkContext s0) →
  (∀ v s0, snarkContext (check type v s0).2 = snarkContext s0) →
  snarkContext (entered s)
  = (nextId s, withWitnessBlock (currentFrame s)) :: snarkContext s
  ∧ snarkContext (witness type compute s).2 = snarkContext s
  ∧ (∀ e s1, proverValues (snarky s) = true →
       compute (entered s) = (Throw e, s1) →
       witness type compute s
       = (Throw e, set_snarkContext (snarkContext s) s1))
  ∧ (∀ v e s1 s2, proverValues (snarky s) = true →
       compute (entered s) = (Normal v, s1) →
       mapM readField (toFields type v) s1 = (Throw e, s2) →
       witness type compute s
       = (Throw e, set_snarkContext (snarkContext s) s2)).
Proof.
  intros Hc Hb Hcompute Hcheck. split; [done|].
  assert (∀ s0, snarkContext
                  ((proverValue <- compute ;;
                    ret (toFields type proverValue, proverValue)) s0).2
                = snarkContext s0) as Hcb.
  { intros s0. unfold bind, ret. specialize (Hcompute s0).
    by destruct (compute s0) as [[?|?] ?]. }
  rewrite witness_checked by by apply direct_false.
  split; [|split].
  - unfold bind at 1, try_finally.
    pose proof (Snarky_exists_snarkContext (sizeInFields type) _ (entered s) Hcb)
      as Hex.
    destruct (Snarky_exists _ _ (entered s)) as [r s1]. simpl in Hex.
    rewrite (leave_entered s s1) by done.
    destruct r as [r|e]; [|done].
    unfold bind, ret. specialize (Hcheck (Some (fromFields type r.1
      (toAuxiliary type r.2))) (set_snarkContext (snarkContext s) s1)).
    by destruct (check type _ _) as [[[]|?] ?].
  - intros e s1 Hp He. unfold bind at 1, try_finally.
    unfold Snarky_exists, bind at 1, gets. simpl. rewrite Hp.
    unfold bind at 1 2. rewrite He.
    rewrite (leave_entered s s1); [done|].
    specialize (Hcompute (entered s)). by rewrite He in Hcompute.
  - intros v e s1 s2 Hp Hv He. unfold bind at 1, try_finally.
    unfold Snarky_exists, bind at 1, gets. simpl. rewrite Hp.
    unfold bind at 1 2. rewrite Hv. unfold ret at 1. unfold bind at 1.
    simpl. rewrite He.
    pose proof (mapM_readField_state (toFields type v) s1) as Hr.
    rewrite He in Hr. simpl in Hr. subst s2.
    rewrite (leave_entered s s1); [done|].
    specialize (Hcompute (entered s)). by rewrite Hv in Hcompute.
Qed.

Lemma witness_frame_unwound_witness :
  witness FieldType (throw (Error "no witness")) proving
  = (Throw (Error "no witness"), set_nextId 2 proving)
  ∧ witness FieldType (ret (Var 5)) proving
    = (Throw (Error "can't evaluate a variable outside the prover"),
       set_nextId 2 proving).
Proof.
  split.
  - destruct (witness_frame_unwound FieldType (throw (Error "no witness"))
                proving eq_refl eq_refl (λ _, eq_refl) (λ _ _, eq_refl))
      as (_ & _ & H & _).
    apply (H (Error "no witness") (entered proving)); reflexivity.
  - destruct (witness_frame_unwound FieldType (ret (Var 5))
                proving eq_refl eq_refl (λ _, eq_refl) (λ _ _, eq_refl))
      as (_ & _ & _ & H).
    apply (H (Var 5) _ (entered proving) (entered proving)); reflexivity.
Defined.

(** ** The array combinator: C5, C6 and C7 *)

Lemma length_concat_sized {T J} (type : Provable T J) (xs : list T) :
  Forall (Sized type) xs →
  length (concat (toFields type <$> xs)) = length xs * sizeInFields type.
Proof.
  induction 1 as [|x xs Hx _ IH]; [done|].
  rewrite fmap_cons. change (length (toFields type x ++ concat (toFields type <$> xs))
          = length (x :: xs) * sizeInFields type).
  rewrite length_app, IH. unfold Sized in Hx. simpl. lia.
Qed.

(** C6. The array descriptor declares [n * sizeInFields] field elements;
    [toFields] is the concatenation of the elements' serializations in
    order, and for [n] elements that each serialize to [sizeInFields] field
    elements it has exactly [n * sizeInFields] of them. *)
Theorem provableArray_sizeInFields {T J} (type : Provable T J) (n : nat)
    (xs : list T) :
  length xs = n →
  Forall (Sized type) xs →
  sizeInFields (provableArray type n) = n * sizeInFields type
  ∧ toFields (provableArray type n) xs = concat (toFields type <$> xs)
  ∧ length (toFields (provableArray type n) xs) = n * sizeInFields type.
Proof.
  intros Hn Hs. split; [simpl; lia|]. split; [done|].
  change (toFields (provableArray type n) xs)
    with (concat (toFields type <$> xs)).
  rewrite length_concat_sized by done. by rewrite Hn.
Qed.

Lemma provableArray_sizeInFields_witness :
  sizeInFields (provableArray FieldType 3) = 3 * sizeInFields FieldType
  ∧ toFields (provableArray FieldType 3) [Constant 4; Var 1; Constant 6]
    = concat (toFields FieldType <$> [Constant 4; Var 1; Constant 6])
  ∧ length (toFields (provableArray FieldType 3) [Constant 4; Var 1; Constant 6])
    = 3 * sizeInFields FieldType.
Proof.
  apply (provableArray_sizeInFields FieldType 3 [Constant 4; Var 1; Constant 6]);
    [reflexivity | repeat constructor].
Defined.

(** The loop of [fromFields], started after the elements [pre], rebuilds
    the remaining elements [xs]. *)
Lemma fromFields_loop_round_trip {T J} (type : Provable T J) (pre xs : list T) :
  Forall (Sized type) pre → Forall (Sized type) xs →
  Forall (RoundTrip type) xs →
  fromFields_loop type (sizeInFields type)
    (concat (toFields type <$> pre ++ xs))
    (AArray (toAuxiliary type <$> (Some <$> pre ++ xs)))
    (length xs) (length pre) (length pre * sizeInFields type)
  = xs.
Proof.
  intros Hpre Hxs. revert pre Hpre.
  induction Hxs as [|x xs Hx Hxs IH]; intros pre Hpre Hrt; [done|].
  apply Forall_cons in Hrt as [Hrtx Hrt]. simpl. f_equal.
  - unfold slice.
    replace (length pre * sizeInFields type + sizeInFields type
             - length pre * sizeInFields type) with (sizeInFields type) by lia.
    rewrite fmap_app, concat_app. simpl.
    rewrite <- (length_concat_sized type pre Hpre), drop_app_length.
    rewrite <- Hx, take_app_length.
    rewrite !list_lookup_fmap, lookup_app_r, Nat.sub_diag by done.
    simpl. apply Hrtx.
  - specialize (IH (pre ++ [x])).
    rewrite <- !(assoc_L (++)) in IH. simpl in IH.
    rewrite length_app in IH. simpl in IH.
    replace (S (length pre)) with (length pre + 1) by lia.
    replace (length pre * sizeInFields type + sizeInFields type)
      with ((length pre + 1) * sizeInFields type) by lia.
    apply IH; [|done]. apply Forall_app; split; [done|by constructor].
Qed.

(** C5. For an element descriptor that obeys the round-trip law and the
    size law on the elements of [xs], an array of [n] elements is rebuilt
    from its field elements and auxiliary data element by element and in
    order; the array of five constants 1..5 over a one-field element type
    serializes to these five field elements in order and is rebuilt from
    them. *)
Theorem provableArray_round_trip {T J} (type : Provable T J) (n : nat)
    (xs : list T) :
  length xs = n →
  Forall (Sized type) xs →
  Forall (RoundTrip type) xs →
  fromFields (provableArray type n)
    (toFields (provableArray type n) xs)
    (toAuxiliary (provableArray type n) (Some xs)) = xs
  ∧ toFields (provableArray FieldType 5) (Constant <$> [1; 2; 3; 4; 5]%Z)
    = Constant <$> [1; 2; 3; 4; 5]%Z
  ∧ fromFields (provableArray FieldType 5) (Constant <$> [1; 2; 3; 4; 5]%Z)
      (toAuxiliary (provableArray FieldType 5)
         (Some (Constant <$> [1; 2; 3; 4; 5]%Z)))
    = Constant <$> [1; 2; 3; 4; 5]%Z.
Proof.
  intros Hn Hs Hrt. split; [|done]. subst n. simpl.
  by apply (fromFields_loop_round_trip type [] xs).
Qed.

Lemma provableArray_round_trip_witness :
  fromFields (provableArray BoolType 2)
    (toFields (provableArray BoolType 2) [Constant 1; Var 3])
    (toAuxiliary (provableArray BoolType 2) (Some [Constant 1; Var 3]))
  = [Constant 1; Var 3].
Proof.
  apply (provableArray_round_trip BoolType 2 [Constant 1; Var 3]);
    [reflexivity | repeat constructor | repeat constructor].
Defined.

(** Methods that return without touching the state. *)
Lemma mapM_pure {A B} (f : A → M B) (g : A → B) (l : list A) (s : State) :
  (∀ x, x ∈ l → ∀ s0, f x s0 = (Normal (g x), s0)) →
  mapM f l s = (Normal (g <$> l), s).
Proof.
  induction l as [|x l IH]; intros H; [done|].
  simpl. unfold bind. rewrite (H x) by left.
  rewrite IH by (intros y Hy; apply H; by right). done.
Qed.

Lemma reduce_append_pure {T} (toInput_ : T → M HashInput) (h : T → HashInput)
    (xs : list T) :
  (∀ x, x ∈ xs → ∀ s, toInput_ x s = (Normal (h x), s)) →
  ∀ curr s, reduce_append toInput_ xs curr s
            = (Normal (foldl HashInput_append curr (h <$> xs)), s).
Proof.
  induction xs as [|x xs IH]; intros H curr s; [done|].
  simpl. unfold bind. rewrite (H x) by left.
  apply IH. intros y Hy. apply H. by right.
Qed.

Lemma reduce_append_snoc {T} (toInput_ : T → M HashInput) (array : list T)
    (x : T) :
  ∀ curr s,
    reduce_append toInput_ (array ++ [x]) curr s
    = match reduce_append toInput_ array curr s with
      | (Normal acc, s1) =>
          match toInput_ x s1 with
          | (Normal h, s2) => (Normal (HashInput_append acc h), s2)
          | (Throw e, s2) => (Throw e, s2)
          end
      | (Throw e, s1) => (Throw e, s1)
      end.
Proof.
  induction array as [|y array IH]; intros curr s; simpl; unfold bind.
  - by destruct (toInput_ x s) as [[h|e] s1].
  - destruct (toInput_ y s) as [[h|e] s1]; [|done]. apply IH.
Qed.

(** C7. [toJSON], [fromJSON] and [toInput] of an array descriptor are
    always present. Each of them throws at once, with a message naming the
    method, when the element descriptor lacks that method. Otherwise it
    calls the element's method on every entry, in order and each in the
    state the previous call left: [toJSON] and [fromJSON] collect the
    results, [toInput] appends them to [HashInput.empty] from left to
    right; the first exception of the element's method is the exception
    of the call, and when the element's method returns on every entry the
    call returns. *)
Theorem provableArray_optional_methods {T J} (type : Provable T J) (n : nat) :
  (∃ f, toJSON (provableArray type n) = Some f ∧
     match toJSON type with
     | None => ∀ array s, f array s =
         (Throw (Error "circuitArray.toJSON: element type has no toJSON method"), s)
     | Some toJSON_ =>
         (∀ s, f [] s = (Normal [], s))
         ∧ (∀ x array s,
              f (x :: array) s
              = match toJSON_ x s with
                | (Normal y, s1) =>
                    match f array s1 with
                    | (Normal ys, s2) => (Normal (y :: ys), s2)
                    | (Throw e, s2) => (Throw e, s2)
                    end
                | (Throw e, s1) => (Throw e, s1)
                end)
         ∧ (∀ (encode : T → J) array s,
              (∀ x, x ∈ array → ∀ s0, toJSON_ x s0 = (Normal (encode x), s0)) →
              f array s = (Normal (encode <$> array), s))
     end)
  ∧ (∃ f, fromJSON (provableArray type n) = Some f ∧
     match fromJSON type with
     | None => ∀ json s, f json s =
         (Throw (Error "circuitArray.fromJSON: element type has no fromJSON method"), s)
     | Some fromJSON_ =>
         (∀ s, f [] s = (Normal [], s))
         ∧ (∀ a json s,
              f (a :: json) s
              = match fromJSON_ a s with
                | (Normal y, s1) =>
                    match f json s1 with
                    | (Normal ys, s2) => (Normal (y :: ys), s2)
                    | (Throw e, s2) => (Throw e, s2)
                    end
                | (Throw e, s1) => (Throw e, s1)
                end)
         ∧ (∀ (decode : J → T) json s,
              (∀ a, a ∈ json → ∀ s0, fromJSON_ a s0 = (Normal (decode a), s0)) →
              f json s = (Normal (decode <$> json), s))
     end)
  ∧ (∃ f, toInput (provableArray type n) = Some f ∧
     match toInput type with
     | None => ∀ array s, f array s =
         (Throw (Error "circuitArray.toInput: element type has no toInput method"), s)
     | Some toInput_ =>
         (∀ s, f [] s = (Normal HashInput_empty, s))
         ∧ (∀ array x s,
              f (array ++ [x]) s
              = match f array s with
                | (Normal acc, s1) =>
                    match toInput_ x s1 with
                    | (Normal h, s2) => (Normal (HashInput_append acc h), s2)
                    | (Throw e, s2) => (Throw e, s2)
                    end
                | (Throw e, s1) => (Throw e, s1)
                end)
         ∧ (∀ (input : T → HashInput) array s,
              (∀ x, x ∈ array → ∀ s0, toInput_ x s0 = (Normal (input x), s0)) →
              f array s
              = (Normal (foldl HashInput_append HashInput_empty
                           (input <$> array)), s))
     end).
Proof.
  assert (Hmap : ∀ (A B : Type) (g : A → M B) (x : A) (l : list A) (s : State),
            mapM g (x :: l) s
            = match g x s with
              | (Normal y, s1) =>
                  match mapM g l s1 with
                  | (Normal ys, s2) => (Normal (y :: ys), s2)
                  | (Throw e, s2) => (Throw e, s2)
                  end
              | (Throw e, s1) => (Throw e, s1)
              end).
  { intros A B g x l s. simpl. unfold bind, ret.
    destruct (g x s) as [[y|e] s1]; [|done].
    by destruct (mapM g l s1) as [[ys|e] s2]. }
  split; [|split]; eexists; (split; [reflexivity|]); cbv beta.
  - destruct (toJSON type) as [toJSON_|]; [|done].
    split; [done|]. split; [intros; apply Hmap|].
    intros encode array s H. by apply mapM_pure.
  - destruct (fromJSON type) as [fromJSON_|]; [|done].
    split; [done|]. split; [intros; apply Hmap|].
    intros decode json s H. by apply mapM_pure.
  - destruct (toInput type) as [toInput_|]; [|done].
    split; [done|]. split; [intros; apply reduce_append_snoc|].
    intros input array s H. by apply reduce_append_pure.
Qed.

(** ** The analyzer: C8 *)

Lemma gatesFromJson_decoded (bytesToBigInt : list Z → N)
    (cs : JsonConstraintSystem) :
  Forall2 (decoded bytesToBigInt) (gates cs) (gatesFromJson bytesToBigInt cs).2.
Proof.
  unfold gatesFromJson. simpl. apply Forall2_fmap_r, Forall_Forall2_diag.
  apply Forall_forall. intros jg _. repeat split. simpl.
  apply Forall2_fmap_r, Forall_Forall2_diag, Forall_forall. by intros.
Qed.

(** C8. [constraintSystem(f)] runs [f] in a frame in which [inAnalyze] and
    [inCheckedComputation] are set. When [f] returns [result] there,
    leaving the context stack as it found it, [constraintSystem(f)] returns
    the row count and the digest of the backend's analysis, [result], the
    public input size, and one gate per serialized gate, in order, with the
    same type tag and wires and with each coefficient replaced by the
    decimal representation of the integer its bytes encode, in order; it
    leaves the frame. *)
Theorem constraintSystem_result {T} (bytesToBigInt : list Z → N)
    (digestOf : list JsonGate → string) (f : M T) (s s1 : State) (result : T) :
  f (analysing s) = (Normal result, s1) →
  snarkContext s1 = snarkContext (analysing s) →
  truthy (inAnalyze (currentFrame (analysing s))) = true
  ∧ checked (analysing s) = true
  ∧ ∃ a cs,
      Snarky_constraintSystem digestOf f (snarkContext_enter analyzeFlags s).2
      = (Normal (a, result), s1)
      ∧ constraintSystem bytesToBigInt digestOf f s
        = (Normal cs, set_snarkContext (snarkContext s) s1)
      ∧ cs_rows cs = a_rows a
      ∧ cs_digest cs = a_digest a
      ∧ cs_result cs = result
      ∧ cs_publicInputSize cs = public_input_size (a_json a)
      ∧ Forall2 (decoded bytesToBigInt) (gates (a_json a)) (cs_gates cs).
Proof.
  intros Hf Hbal. split; [done|]. split; [done|].
  assert (Snarky_constraintSystem digestOf f (snarkContext_enter analyzeFlags s).2
          = (Normal ({| a_rows := length (recorded (snarky s1));
                        a_digest := digestOf (recorded (snarky s1));
                        a_json := {| gates := recorded (snarky s1);
                                     public_input_size :=
                                       publicInputs (snarky s1) |} |},
                     result), s1)) as Ha.
  { unfold Snarky_constraintSystem, bind at 1, modify.
    change (set_snarky _ (snarkContext_enter analyzeFlags s).2)
      with (analysing s).
    unfold bind at 1. rewrite Hf. reflexivity. }
  eexists _, _. split; [exact Ha|]. split.
  { unfold constraintSystem, snarkContext_runWith, bind at 1.
    change (snarkContext_enter analyzeFlags s)
      with (Normal (nextId s), (snarkContext_enter analyzeFlags s).2).
    cbv beta iota. unfold try_finally, bind at 1. rewrite Ha.
    unfold ret, snarkContext_leave. cbv beta iota. rewrite Hbal. simpl.
    rewrite decide_True by done. reflexivity. }
  repeat split. apply gatesFromJson_decoded.
Qed.

Lemma constraintSystem_result_witness :
  ∃ cs, constraintSystem bytesToBigInt_le (λ g, pretty (length g))
          (_ <- emit sampleGate ;; witness FieldType Field_random) proving
        = (Normal cs, set_snarkContext (snarkContext proving)
                        (witness FieldType Field_random
                           (emit sampleGate (analysing proving)).2).2)
     ∧ cs_rows cs = 1
     ∧ cs_result cs = Var 0
     ∧ cs_gates cs
       = [{| type_ := "Generic";
             wires := [{| row := 0; col := 0 |}; {| row := 0; col := 1 |}];
             coeffs := ["1"; "511"; "0"] |}].
Proof.
  destruct (constraintSystem_result bytesToBigInt_le (λ g, pretty (length g))
              (_ <- emit sampleGate ;; witness FieldType Field_random)
              proving _ (Var 0) eq_refl eq_refl)
    as (_ & _ & a & cs & Ha & Hcs & Hrows & _ & Hres & _ & _).
  exists cs. split; [exact Hcs|]. injection Ha as <- . 
  split; [exact Hrows|]. split; [exact Hres|].
  injection Hcs as <-. reflexivity.
Defined.

(** ** The blinding value: C9 *)

Lemma Context_get_has {C} (data : list (nat * C)) (c : C) :
  Context_get data = Some c → Context_has data = true.
Proof. by destruct data. Qed.

(** A call in a scope whose blinding value is set returns it and changes
    nothing. *)
Lemma getBlindingValue_sampled (s : State) (ref : nat)
    (c : MemoizationContext) (x : Field) :
  Context_get (memoizationContext s) = Some ref →
  contexts s !! ref = Some c →
  blindingValue c = Some x →
  getBlindingValue s = (Normal x, s).
Proof.
  intros Hget Href Hx.
  unfold getBlindingValue, bind, memoizationContext_has, gets,
    memoizationContext_get, deref.
  rewrite (Context_get_has _ _ Hget). simpl. rewrite Hget, Href.
  by rewrite Hx.
Qed.

Lemma getBlindingValue_repeat (n : nat) (s : State) (ref : nat)
    (c : MemoizationContext) (x : Field) :
  Context_get (memoizationContext s) = Some ref →
  contexts s !! ref = Some c →
  blindingValue c = Some x →
  mapM (λ _ : unit, getBlindingValue) (replicate n tt) s
  = (Normal (replicate n x), s).
Proof.
  intros Hget Href Hx. induction n as [|n IH]; [done|].
  simpl. unfold bind at 1. rewrite (getBlindingValue_sampled s ref c x) by done.
  unfold bind at 1. by rewrite IH.
Qed.

(** C9. Within a memoization scope, the first [getBlindingValue()] call
    draws the blinding value from the random source only when the scope has
    none yet, and stores it in the scope; every later call in that scope,
    in whatever state the scope still holds that value, returns it and
    draws nothing. So any number of calls in a row all return the value of
    the first and draw at most once. *)
Theorem getBlindingValue_once (s : State) (ref : nat) (c : MemoizationContext) :
  Context_get (memoizationContext s) = Some ref →
  contexts s !! ref = Some c →
  ∃ x s1 c1,
    getBlindingValue s = (Normal x, s1)
    ∧ match blindingValue c with
      | None => x = Constant (randomSource s (randomDrawn s))
                ∧ randomDrawn s1 = S (randomDrawn s)
      | Some y => x = y ∧ s1 = s
      end
    ∧ memoizationContext s1 = memoizationContext s
    ∧ contexts s1 !! ref = Some c1
    ∧ blindingValue c1 = Some x
    ∧ (∀ s2 c2, Context_get (memoizationContext s2) = Some ref →
         contexts s2 !! ref = Some c2 →
         blindingValue c2 = Some x →
         getBlindingValue s2 = (Normal x, s2))
    ∧ (∀ n, ∃ s', mapM (λ _ : unit, getBlindingValue) (replicate (S n) tt) s
                  = (Normal (replicate (S n) x), s')
                  ∧ randomDrawn s' ≤ S (randomDrawn s)).
Proof.
  intros Hget Href.
  assert (∃ x s1 c1,
    getBlindingValue s = (Normal x, s1)
    ∧ match blindingValue c with
      | None => x = Constant (randomSource s (randomDrawn s))
                ∧ randomDrawn s1 = S (randomDrawn s)
      | Some y => x = y ∧ s1 = s
      end
    ∧ memoizationContext s1 = memoizationContext s
    ∧ contexts s1 !! ref = Some c1
    ∧ blindingValue c1 = Some x) as (x & s1 & c1 & Hcall & Hfirst & Hm & Hc1 & Hx).
  { destruct (blindingValue c) as [y|] eqn:Hb.
    - exists y, s, c. by rewrite (getBlindingValue_sampled s ref c y).
    - eexists _, _, _. split.
      { unfold getBlindingValue, bind, memoizationContext_has, gets,
          memoizationContext_get, deref.
        rewrite (Context_get_has _ _ Hget). simpl. rewrite Hget, Href.
        rewrite Hb. reflexivity. }
      simpl. repeat split.
      + rewrite list_lookup_alter_eq, Href. reflexivity.
      + reflexivity. }
  exists x, s1, c1. repeat (split; [done|]).
  split; [intros; by eapply getBlindingValue_sampled|].
  intros n. exists s1. simpl. unfold bind at 1. rewrite Hcall.
  unfold bind at 1.
  rewrite (getBlindingValue_repeat n s1 ref c1 x); [|by rewrite Hm|done..].
  split; [done|]. destruct (blindingValue c); destruct Hfirst; subst; lia.
Qed.

Lemma getBlindingValue_once_witness :
  ∃ s1, getBlindingValue recording = (Normal (Constant 1000), s1)
        ∧ randomDrawn s1 = 1
        ∧ getBlindingValue s1 = (Normal (Constant 1000), s1).
Proof.
  destruct (getBlindingValue_once recording 0 _ eq_refl eq_refl)
    as (x & s1 & c1 & Hcall & Hfirst & Hm & Hc1 & Hx & Hlater & _).
  simpl in Hfirst. destruct Hfirst as [-> Hdrawn].
  exists s1. split; [exact Hcall|]. split; [exact Hdrawn|].
  apply (Hlater s1 c1); [by rewrite Hm | exact Hc1 | exact Hx].
Defined.

(** ** Stepping through computations *)

Lemma bind_Normal {A B} (m : M A) (k : A → M B) (s s1 : State) (a : A) :
  m s = (Normal a, s1) → (x <- m ;; k x) s = k a s1.
Proof. intros H. unfold bind. by rewrite H. Qed.

Lemma bind_inv {A B} (m : M A) (k : A → M B) (s s' : State) (b : B) :
  (x <- m ;; k x) s = (Normal b, s') →
  ∃ a s1, m s = (Normal a, s1) ∧ k a s1 = (Normal b, s').
Proof.
  unfold bind. destruct (m s) as [[a|e] s1]; [|done]. intros H. by exists a, s1.
Qed.

Lemma mapM_state {A B} (f : A → M B) (l : list A) (s : State) :
  (∀ x s0, (f x s0).2 = s0) → (mapM f l s).2 = s.
Proof.
  intros Hf. induction l as [|x l IH]; [done|].
  simpl. unfold bind. specialize (Hf x s).
  destruct (f x s) as [[y|e] s1]; simpl in Hf; subst s1; [|done].
  destruct (mapM f l s) as [[ys|e] s1]; simpl in IH; by subst s1.
Qed.

Lemma Field_toConstant_state (x : Field) (s : State) :
  (Field_toConstant x s).2 = s.
Proof.
  unfold Field_toConstant, bind. pose proof (readField_state x s) as Hx.
  destruct (readField x s) as [[z|e] s1]; simpl in Hx; by subst s1.
Qed.

Lemma mapM_toConstant_state (fields : list Field) (s : State) :
  (mapM Field_toConstant fields s).2 = s.
Proof. apply mapM_state, Field_toConstant_state. Qed.

(** ** JavaScript arrays *)

Lemma js_lookup_assign {A} (l : list (option A)) (i j : nat) (x : A) :
  js_lookup (js_assign l i x) j
  = if decide (i = j) then Some x else js_lookup l j.
Proof.
  unfold js_lookup, js_assign. destruct (decide (i < length l)) as [Hi|Hi].
  - destruct (decide (i = j)) as [<-|Hne].
    + by rewrite list_lookup_insert_eq.
    + by rewrite list_lookup_insert_ne.
  - destruct (decide (j < length l)) as [Hj|Hj].
    + rewrite lookup_app_l by done. destruct (decide (i = j)); [lia|done].
    + rewrite lookup_app_r by lia. rewrite (lookup_ge_None_2 l j) by lia.
      destruct (decide (i = j)) as [<-|Hne].
      * rewrite lookup_app_r by (rewrite length_replicate; lia).
        by rewrite length_replicate, Nat.sub_diag.
      * destruct (decide (j < i)).
        -- rewrite lookup_app_l by (rewrite length_replicate; lia).
           by rewrite lookup_replicate_2 by lia.
        -- rewrite lookup_app_r by (rewrite length_replicate; lia).
           rewrite length_replicate.
           destruct (j - length l - (i - length l)) as [|d] eqn:E; [lia|done].
Qed.

(** ** One memoized callback *)

Lemma Scope_array (s : State) (a k : nat) (slot : Memo) :
  js_lookup (memoArray s a) k = Some slot →
  arrays s !! a = Some (memoArray s a).
Proof.
  unfold memoArray. destruct (arrays s !! a) as [l|]; [done|].
  by destruct k.
Qed.

Lemma Scope_advance (s s' : State) (ref a k : nat) :
  Scope s ref a k →
  memoizationContext s' = memoizationContext s →
  contexts s' = alter advance ref (contexts s) →
  Scope s' ref a (k + 1).
Proof.
  intros (Hget & c & Href & Ha & Hk) Hm Hc. split; [by rewrite Hm|].
  exists (advance c). rewrite Hc, list_lookup_alter_eq, Href.
  repeat split; [done|]. simpl. by rewrite Hk.
Qed.

(** A populated slot is reused: the callback is not called, the cursor
    advances, nothing else changes. *)
Lemma memoizedCompute_populated {T J} (type : Provable T J) (compute : M T)
    (s : State) (ref a k : nat) (slot : Memo) :
  Scope s ref a k →
  js_lookup (memoArray s a) k = Some slot →
  memoizedCompute type compute s
  = (Normal (fromFields type (m_fields slot) (m_aux slot)),
     set_contexts (alter advance ref (contexts s)) s).
Proof.
  intros (Hget & c & Href & Ha & Hk) Hslot.
  pose proof (Scope_array _ _ _ _ Hslot) as Harr.
  unfold memoizedCompute, bind, memoizationContext_has, gets,
    memoizationContext_get, deref, array_read, update, modify, ret.
  rewrite (Context_get_has _ _ Hget). simpl. rewrite Hget, Href.
  rewrite Ha, Hk, Harr, Hslot. reflexivity.
Qed.

(** An empty slot is filled: the callback is called once, the field
    elements of its value are stored as constants with the auxiliary data
    at the cursor, and the cursor advances. *)
Lemma memoizedCompute_empty {T J} (type : Provable T J) (compute : M T)
    (s s' : State) (ref a k : nat) (x : T) :
  Scope s ref a k →
  js_lookup (memoArray s a) k = None →
  memoizedCompute type compute s = (Normal x, s') →
  ∃ v s1 fields,
    is_Some (arrays s !! a)
    ∧ compute s = (Normal v, s1)
    ∧ mapM Field_toConstant (toFields type v) s1 = (Normal fields, s1)
    ∧ x = fromFields type fields (toAuxiliary type (Some v))
    ∧ s' = set_contexts (alter advance ref (contexts s1))
             (set_arrays
                (alter (λ l, js_assign l k
                               {| m_fields := fields;
                                  m_aux := toAuxiliary type (Some v) |})
                   a (arrays s1)) s1).
Proof.
  intros (Hget & c & Href & Ha & Hk) Hslot.
  unfold memoizedCompute, bind, memoizationContext_has, gets,
    memoizationContext_get, deref, array_read, update, modify, ret.
  rewrite (Context_get_has _ _ Hget). simpl. rewrite Hget, Href.
  rewrite Ha, Hk. unfold memoArray in Hslot.
  destruct (arrays s !! a) as [l|]; cbv beta iota; [|intros ?; discriminate].
  change (js_lookup l k = None) in Hslot. rewrite Hslot.
  destruct (compute s) as [[v|e] s1] eqn:Hv; cbv beta iota;
    [|intros ?; discriminate].
  pose proof (mapM_toConstant_state (toFields type v) s1) as Hst.
  destruct (mapM Field_toConstant (toFields type v) s1) as [[fields|e] s2]
    eqn:Hf; simpl in Hst; subst s2; cbv beta iota; [|intros ?; discriminate].
  intros [= <- <-]. exists v, s1, fields. split; [by eexists|].
  repeat split. exact Hf.
Qed.

(** Either way, a callback that completes normally delivers the value
    rebuilt from the slot the array holds at the cursor afterwards: the
    slot it found there, or else the one it stored. *)
Lemma memoizedCompute_spec {T J} (type : Provable T J) (compute : M T)
    (s s' : State) (ref a k : nat) (x : T) :
  Scope s ref a k →
  (js_lookup (memoArray s a) k = None → Quiet compute) →
  memoizedCompute type compute s = (Normal x, s') →
  ∃ slot,
    x = fromFields type (m_fields slot) (m_aux slot)
    ∧ js_lookup (memoArray s' a) k = Some slot
    ∧ (∀ j, j ≠ k → js_lookup (memoArray s' a) j = js_lookup (memoArray s a) j)
    ∧ Scope s' ref a (k + 1)
    ∧ snarkContext s' = snarkContext s
    ∧ memoizationContext s' = memoizationContext s
    ∧ match js_lookup (memoArray s a) k with
      | Some slot0 => slot = slot0 ∧ snarky s' = snarky s
      | None =>
          ∃ v s0 fields,
            compute s = (Normal v, s0)
            ∧ mapM Field_toConstant (toFields type v) s0 = (Normal fields, s0)
            ∧ slot = {| m_fields := fields;
                        m_aux := toAuxiliary type (Some v) |}
            ∧ snarky s' = snarky s0
      end.
Proof.
  intros Hscope Hquiet Hrun.
  destruct (js_lookup (memoArray s a) k) as [slot|] eqn:Hslot.
  - rewrite (memoizedCompute_populated type compute s ref a k slot) in Hrun
      by done.
    injection Hrun as <- <-. exists slot.
    split; [done|]. split; [done|]. split; [done|].
    split; [by eapply Scope_advance|]. done.
  - destruct (memoizedCompute_empty type compute s s' ref a k x)
      as (v & s1 & fields & [l Harr] & Hv & Hf & -> & ->); [done..|].
    destruct (Hquiet eq_refl s) as (Hq1 & Hq2 & Hq3 & Hq4). rewrite Hv in *.
    simpl in Hq1, Hq2, Hq3, Hq4.
    set (slot := {| m_fields := fields; m_aux := toAuxiliary type (Some v) |}).
    assert (∀ j, js_lookup
                   (memoArray
                      (set_contexts (alter advance ref (contexts s1))
                         (set_arrays
                            (alter (λ l, js_assign l k slot) a (arrays s1))
                            s1)) a) j
                 = if decide (k = j) then Some slot
                   else js_lookup (memoArray s a) j) as Hl.
    { intros j. unfold memoArray. simpl.
      rewrite list_lookup_alter_eq, Hq4, Harr. apply js_lookup_assign. }
    exists slot. split; [done|].
    split; [rewrite Hl; by rewrite decide_True|].
    split; [intros j Hj; rewrite Hl; by rewrite decide_False|].
    split; [apply (Scope_advance s); [done|done|simpl; by rewrite Hq3]|].
    split; [done|]. split; [done|]. by exists v, s1, fields.
Qed.

(** ** One memoized call outside a checked computation *)

Lemma direct_snarkContext (s s' : State) :
  snarkContext s' = snarkContext s → direct s' = direct s.
Proof. unfold direct, checked, inBlock, currentFrame. by intros ->. Qed.

Lemma callFields_direct_spec (c : WitnessCall) (s s' : State) (ref a k : nat)
    (r : list Field) :
  direct s = true →
  Scope s ref a k →
  Quiet (wc_compute c) →
  callFields c s = (Normal r, s') →
  ∃ slot,
    r = replay c slot
    ∧ js_lookup (memoArray s' a) k = Some slot
    ∧ (∀ j, j ≠ k → js_lookup (memoArray s' a) j = js_lookup (memoArray s a) j)
    ∧ Scope s' ref a (k + 1)
    ∧ snarkContext s' = snarkContext s
    ∧ memoizationContext s' = memoizationContext s.
Proof.
  intros Hd Hscope Hquiet Hrun. unfold callFields, memoizeWitness in Hrun.
  apply bind_inv in Hrun as (v & s1 & Hw & Hret).
  injection Hret as <- <-. rewrite witness_direct in Hw by done.
  apply bind_inv in Hw as (x & s2 & Hm & Hret). injection Hret as <- <-.
  destruct (memoizedCompute_spec _ _ _ _ ref a k _ Hscope (λ _, Hquiet) Hm)
    as (slot & -> & H1 & H2 & H3 & H4 & H5 & _).
  by exists slot.
Qed.

Lemma callFields_direct_replay (c : WitnessCall) (s : State) (ref a k : nat)
    (slot : Memo) :
  direct s = true →
  Scope s ref a k →
  js_lookup (memoArray s a) k = Some slot →
  callFields c s
  = (Normal (replay c slot), set_contexts (alter advance ref (contexts s)) s).
Proof.
  intros Hd Hscope Hslot. unfold callFields, memoizeWitness.
  erewrite bind_Normal; [reflexivity|]. rewrite witness_direct by done.
  erewrite bind_Normal; [reflexivity|].
  by apply memoizedCompute_populated with (k := k) (a := a).
Qed.

(** ** A pass outside a checked computation *)

Lemma expected_sameType (l : list (option Memo)) (k : nat)
    (calls calls' : list WitnessCall) :
  Forall2 sameType calls calls' → expected l k calls = expected l k calls'.
Proof.
  intros H. revert k. induction H as [|c c' calls calls' Hc _ IH]; intros k;
    [done|].
  simpl. rewrite IH. by destruct Hc.
Qed.

Lemma pass_direct_spec (ref a : nat) (calls : list WitnessCall) :
  ∀ (s s' : State) (k : nat) (rs : list (list Field)),
    direct s = true →
    Scope s ref a k →
    Forall (λ c, Quiet (wc_compute c)) calls →
    pass calls s = (Normal rs, s') →
    expected (memoArray s' a) k calls = Some rs
    ∧ (∀ j, j < k → js_lookup (memoArray s' a) j = js_lookup (memoArray s a) j)
    ∧ Scope s' ref a (k + length calls)
    ∧ snarkContext s' = snarkContext s
    ∧ memoizationContext s' = memoizationContext s.
Proof.
  induction calls as [|c calls IH]; intros s s' k rs Hd Hscope Hquiet Hrun.
  - injection Hrun as <- <-. rewrite Nat.add_0_r.
    repeat (split; [done|]). done.
  - apply Forall_cons in Hquiet as [Hc Hquiet].
    unfold pass in Hrun. simpl in Hrun.
    apply bind_inv in Hrun as (r & s1 & Hcall & Hrun).
    apply bind_inv in Hrun as (rs' & s2 & Hrest & Hret).
    injection Hret as <- <-.
    destruct (callFields_direct_spec c s s1 ref a k r Hd Hscope Hc Hcall)
      as (slot & -> & Hslot & Hframe & Hscope1 & Hsc1 & Hm1).
    replace (k + 1) with (S k) in Hscope1 by lia.
    destruct (IH s1 s2 (S k) rs') as (Hexp & Hframe2 & Hscope2 & Hsc2 & Hm2);
      [by rewrite (direct_snarkContext s) | done..|].
    split; [|split; [|split; [|split]]].
    + simpl. rewrite Hframe2, Hslot by lia. by rewrite Hexp.
    + intros j Hj. rewrite Hframe2 by lia. apply Hframe. lia.
    + simpl. by replace (k + S (length calls)) with (S k + length calls) by lia.
    + by rewrite Hsc2.
    + by rewrite Hm2.
Qed.

Lemma pass_direct_replay (ref a : nat) (calls : list WitnessCall) :
  ∀ (s : State) (k : nat) (rs : list (list Field)),
    direct s = true →
    Scope s ref a k →
    expected (memoArray s a) k calls = Some rs →
    ∃ s', pass calls s = (Normal rs, s')
          ∧ snarkContext s' = snarkContext s
          ∧ memoizationContext s' = memoizationContext s
          ∧ arrays s' = arrays s
          ∧ snarky s' = snarky s
          ∧ randomDrawn s' = randomDrawn s.
Proof.
  induction calls as [|c calls IH]; intros s k rs Hd Hscope Hexp.
  - injection Hexp as <-. by exists s.
  - simpl in Hexp.
    destruct (js_lookup (memoArray s a) k) as [slot|] eqn:Hslot; [|done].
    destruct (expected (memoArray s a) (S k) calls) as [rs'|] eqn:Hexp';
      [|done].
    injection Hexp as <-.
    pose proof (callFields_direct_replay c s ref a k slot Hd Hscope Hslot)
      as Hcall.
    set (s1 := set_contexts (alter advance ref (contexts s)) s) in *.
    destruct (IH s1 (S k) rs') as (s' & Hrest & H1 & H2 & H3 & H4 & H5);
      [done| |done|].
    { replace (S k) with (k + 1) by lia. by apply (Scope_advance s). }
    exists s'. split; [|done].
    unfold pass. simpl. rewrite (bind_Normal _ _ _ _ _ Hcall).
    by rewrite (bind_Normal _ _ _ _ _ Hrest).
Qed.

(** ** Two passes under one record: C1 *)

Lemma runWith_unfold {A} (context : MemoizationContext) (f : M A) (s : State) :
  memoizationContext_runWith context f s
  = try_finally f (memoizationContext_leave (nextId s)) (scoped context s).
Proof. reflexivity. Qed.

Lemma runWith_Normal {A} (context : MemoizationContext) (f : M A)
    (s s' : State) (r : A) :
  f (scoped context s) = (Normal r, s') →
  memoizationContext s' = memoizationContext (scoped context s) →
  memoizationContext_runWith context f s
  = (Normal r, set_memoizationContext (memoizationContext s) s').
Proof.
  intros Hf Hm. rewrite runWith_unfold. unfold try_finally.
  rewrite Hf. unfold memoizationContext_leave. rewrite Hm. simpl.
  by rewrite decide_True.
Qed.

Lemma runWith_inv {A} (context : MemoizationContext) (f : M A)
    (s s1 : State) (r : A) :
  memoizationContext_runWith context f s = (Normal r, s1) →
  ∃ s', f (scoped context s) = (Normal r, s') ∧ arrays s1 = arrays s'.
Proof.
  rewrite runWith_unfold. unfold try_finally, memoizationContext_leave.
  destruct (f (scoped context s)) as [r' s'].
  destruct (Context_leave (nextId s) (memoizationContext s')) as [rest|];
    [|intros ?; discriminate].
  intros [= -> <-]. by exists s'.
Qed.

Lemma Scope_scoped (a : nat) (bv : option Field) (s : State) :
  Scope (scoped (passContext a bv) s) (length (contexts s)) a 0.
Proof.
  split; [done|]. exists (passContext a bv). split; [|done].
  simpl. by rewrite lookup_app_r, Nat.sub_diag.
Qed.

(** Outside a checked computation: if the first pass completes, its
    results are those rebuilt from the slots the array holds afterwards,
    and the second pass completes with the same field elements at every
    index without calling a callback. *)
Lemma passes_direct (calls calls' : list WitnessCall)
    (s1 s1' : State) (rs : list (list Field)) (a : nat) (bv : option Field) :
  Forall2 sameType calls calls' →
  Forall (λ c, Quiet (wc_compute c)) calls →
  direct s1 = true →
  memoizationContext_runWith (passContext a bv) (pass calls) s1
  = (Normal rs, s1') →
  expected (memoArray s1' a) 0 calls = Some rs
  ∧ ∀ (s2 : State) (bv' : option Field),
      direct s2 = true →
      arrays s2 !! a = arrays s1' !! a →
      ∃ s2',
        memoizationContext_runWith (passContext a bv') (pass calls') s2
        = (Normal rs, s2')
        ∧ arrays s2' = arrays s2
        ∧ randomDrawn s2' = randomDrawn s2.
Proof.
  intros Hsame Hquiet Hd1 Hrun.
  apply runWith_inv in Hrun as (s' & Hpass & Harr).
  assert (direct (scoped (passContext a bv) s1) = true) as Hd by done.
  destruct (pass_direct_spec (length (contexts s1)) a calls _ _ 0 rs Hd
              (Scope_scoped a bv s1) Hquiet Hpass) as (Hexp & _).
  assert (memoArray s1' a = memoArray s' a) as Hma.
  { unfold memoArray. by rewrite Harr. }
  split; [by rewrite Hma|].
  intros s2 bv' Hd2 Harr2.
  destruct (pass_direct_replay (length (contexts s2)) a calls'
              (scoped (passContext a bv') s2) 0 rs)
    as (s2' & Hpass2 & _ & Hm2 & Ha2 & _ & Hr2).
  - done.
  - apply Scope_scoped.
  - rewrite <- (expected_sameType _ _ _ _ Hsame), <- Hexp, <- Hma.
    unfold memoArray. simpl. by rewrite Harr2.
  - eexists. split; [by apply runWith_Normal|]. simpl. by rewrite Ha2, Hr2.
Qed.

Lemma Quiet_Field_random : Quiet Field_random.
Proof. by intros s. Qed.

Lemma Quiet_randomBit : Quiet randomBit.
Proof. by intros s. Qed.

(** ** Values of field elements across states *)

Lemma readField_fieldValue (x : Field) (s s' : State) (z : Z) :
  readField x s = (Normal z, s') → fieldValue s x = Some z.
Proof.
  destruct x as [z'|i]; simpl; [by intros [= <- _]|].
  destruct (variables (snarky s) !! i) as [[z'|]|]; [|done..].
  by intros [= <- _].
Qed.

Lemma mapM_readField_values (fields : list Field) (s s' : State)
    (zs : list Z) :
  mapM readField fields s = (Normal zs, s') →
  s' = s ∧ fieldValue s <$> fields = Some <$> zs.
Proof.
  intros H. pose proof (mapM_readField_state fields s) as Hs.
  rewrite H in Hs. simpl in Hs. subst s'. split; [done|].
  revert zs H. induction fields as [|x fields IH]; intros zs H.
  - by injection H as <-.
  - simpl in H. apply bind_inv in H as (z & s1 & Hx & H).
    pose proof (readField_state x s) as Hs. rewrite Hx in Hs. simpl in Hs.
    subst s1. apply bind_inv in H as (zs' & s2 & Hrest & Hret).
    pose proof (mapM_readField_state fields s) as Hs. rewrite Hrest in Hs.
    simpl in Hs. subst s2. injection Hret as <-.
    rewrite !fmap_cons, (IH zs' Hrest).
    by rewrite (readField_fieldValue x s s z Hx).
Qed.

Lemma mapM_toConstant_constants (fields : list Field) (s s' : State)
    (consts : list Field) :
  mapM Field_toConstant fields s = (Normal consts, s') →
  ∃ zs, consts = Constant <$> zs ∧ length zs = length fields.
Proof.
  revert s s' consts. induction fields as [|x fields IH]; intros s s' consts H.
  - injection H as <- <-. by exists [].
  - simpl in H. apply bind_inv in H as (y & s1 & Hx & H).
    apply bind_inv in H as (ys & s2 & Hrest & Hret). injection Hret as <- <-.
    unfold Field_toConstant in Hx. apply bind_inv in Hx as (z & s3 & _ & Hret).
    injection Hret as <- <-.
    destruct (IH _ _ _ Hrest) as (zs & -> & Hlen).
    exists (z :: zs). split; [done|]. simpl. by rewrite Hlen.
Qed.

Lemma fieldValue_constants (s : State) (zs : list Z) :
  fieldValue s <$> (Constant <$> zs) = Some <$> zs.
Proof. by rewrite <- list_fmap_compose. Qed.

Lemma fieldValue_prefix (s s' : State) (fields : list Field) (zs : list Z) :
  variables (snarky s) `prefix_of` variables (snarky s') →
  fieldValue s <$> fields = Some <$> zs →
  fieldValue s' <$> fields = Some <$> zs.
Proof.
  intros [ext Hext]. revert zs.
  induction fields as [|x fields IH]; intros [|z zs]; try done.
  rewrite !fmap_cons. intros [= Hx Hrest]. rewrite (IH zs Hrest).
  f_equal. destruct x as [z'|i]; [done|]. simpl in *. rewrite Hext.
  destruct (variables (snarky s) !! i) as [v|] eqn:Hi; [|done].
  by rewrite (lookup_app_l_Some _ _ _ _ Hi).
Qed.

(** The variables [allocate] returns carry the values it was given. *)
Lemma allocate_values (size : nat) (zs : list Z) (s : State) :
  length zs = size →
  fieldValue (allocate size zs s).2
    <$> (Var <$> seq (length (variables (snarky s))) size)
  = Some <$> zs.
Proof.
  intros Hlen. apply list_eq. intros j.
  rewrite !list_lookup_fmap. simpl.
  destruct (decide (j < size)) as [Hj|Hj].
  - rewrite lookup_seq_lt by done. simpl.
    rewrite lookup_app_r by lia.
    replace (length (variables (snarky s)) + j - length (variables (snarky s)))
      with j by lia.
    rewrite list_lookup_fmap, lookup_seq_lt by done. simpl.
    destruct (lookup_lt_is_Some_2 zs j) as [z Hz]; [lia|]. by rewrite Hz.
  - rewrite lookup_seq_ge by lia. simpl. by rewrite lookup_ge_None_2 by lia.
Qed.

(** ** One memoized call in an evaluating mode *)

Lemma Scope_ext (s s' : State) (ref a k : nat) :
  memoizationContext s' = memoizationContext s →
  contexts s' = contexts s →
  Scope s ref a k → Scope s' ref a k.
Proof. unfold Scope. by intros -> ->. Qed.

Lemma memoArray_ext (s s' : State) (a : nat) :
  arrays s' = arrays s → memoArray s' a = memoArray s a.
Proof. unfold memoArray. by intros ->. Qed.

Lemma fmap_Some_inj {A} (l l' : list A) : Some <$> l = Some <$> l' → l = l'.
Proof.
  revert l'. induction l as [|x l IH]; intros [|y l']; try done.
  rewrite !fmap_cons. intros [= -> H]. by rewrite (IH l' H).
Qed.

(** What the slot of a call holds: the constants of a value of the call's
    type when the call filled it. *)
Lemma memoizedCompute_stored (c : WitnessCall) (s s1 : State) (ref a k : nat)
    (x : wc_T c) :
  Scope s ref a k →
  match js_lookup (memoArray s a) k with
  | Some slot => ∃ zs, stored c slot zs
  | None => Tame (wc_compute c)
  end →
  Lawful (wc_type c) →
  memoizedCompute (wc_type c) (wc_compute c) s = (Normal x, s1) →
  ∃ slot zs,
    x = fromFields (wc_type c) (m_fields slot) (m_aux slot)
    ∧ js_lookup (memoArray s1 a) k = Some slot
    ∧ stored c slot zs
    ∧ (∀ slot0, js_lookup (memoArray s a) k = Some slot0 → slot0 = slot)
    ∧ (∀ j, j ≠ k → js_lookup (memoArray s1 a) j = js_lookup (memoArray s a) j)
    ∧ Scope s1 ref a (k + 1)
    ∧ snarkContext s1 = snarkContext s
    ∧ memoizationContext s1 = memoizationContext s
    ∧ proverValues (snarky s1) = proverValues (snarky s)
    ∧ variables (snarky s) `prefix_of` variables (snarky s1).
Proof.
  intros Hscope Hslot [Hsized Hdual] Hrun.
  destruct (memoizedCompute_spec (wc_type c) (wc_compute c) s s1 ref a k x
              Hscope) as
    (slot & Hx & Hk & Hframe & Hscope1 & Hsc & Hm & Hcase); [|done|].
  { intros Hnone. rewrite Hnone in Hslot. apply Hslot. }
  destruct (js_lookup (memoArray s a) k) as [slot0|].
  - destruct Hcase as [-> Hsn]. destruct Hslot as [zs Hzs].
    exists slot0, zs. rewrite Hsn. split; [done|]. split; [done|].
    split; [done|]. split; [by intros ? [= ->]|].
    by repeat (split; [done|]).
  - destruct Hcase as (v & s0 & fields & Hv & Hf & Hslot0 & Hsn).
    destruct (mapM_toConstant_constants _ _ _ _ Hf) as (zs & Hzs & Hlen).
    destruct Hslot as [_ Htame]. destruct (Htame s) as [Hp Hpre].
    rewrite Hv in Hp, Hpre. simpl in Hp, Hpre.
    exists slot, zs. rewrite Hsn. repeat (split; [done|]).
    split; [split; [by rewrite Hslot0, Hzs | rewrite Hlen; apply Hsized]|].
    split; [done|]. repeat (split; [done|]). done.
Qed.

Lemma try_finally_inv {A} (body : M A) (cleanup : M unit) (s s' : State)
    (r : A) :
  try_finally body cleanup s = (Normal r, s') →
  ∃ s1, body s = (Normal r, s1) ∧ cleanup s1 = (Normal tt, s').
Proof.
  unfold try_finally. destruct (body s) as [r' s1] eqn:Hb.
  destruct (cleanup s1) as [[[]|e] s2] eqn:Hc; [|intros ?; discriminate].
  intros [= -> <-]. by exists s1.
Qed.

Lemma Snarky_exists_inv {X} (size : nat) (compute : M (list Field * X))
    (s s' : State) (r : list Field * option X) :
  proverValues (snarky s) = true →
  Snarky_exists size compute s = (Normal r, s') →
  ∃ fields x s1 zs,
    compute s = (Normal (fields, x), s1)
    ∧ mapM readField fields s1 = (Normal zs, s1)
    ∧ r = (Var <$> seq (length (variables (snarky s1))) size, Some x)
    ∧ s' = (allocate size zs s1).2.
Proof.
  intros Hp. unfold Snarky_exists. unfold bind at 1, gets. rewrite Hp.
  intros H. apply bind_inv in H as ([fields x] & s1 & Hc & H).
  apply bind_inv in H as (zs & s2 & Hr & H).
  destruct (mapM_readField_values _ _ _ _ Hr) as [-> _].
  apply bind_inv in H as (vars & s3 & Ha & Hret).
  injection Hret as <- <-. injection Ha as <- <-.
  by exists fields, x, s1, zs.
Qed.

Lemma callFields_evaluating (c : WitnessCall) (s s' : State) (ref a k : nat)
    (r : list Field) :
  evaluating s = true →
  Scope s ref a k →
  match js_lookup (memoArray s a) k with
  | Some slot => ∃ zs, stored c slot zs
  | None => Tame (wc_compute c)
  end →
  Lawful (wc_type c) →
  (∀ v, Tame (check (wc_type c) v)) →
  callFields c s = (Normal r, s') →
  ∃ slot zs,
    js_lookup (memoArray s' a) k = Some slot
    ∧ stored c slot zs
    ∧ fieldValue s' <$> r = Some <$> zs
    ∧ (∀ slot0, js_lookup (memoArray s a) k = Some slot0 → slot0 = slot)
    ∧ (∀ j, j ≠ k → js_lookup (memoArray s' a) j = js_lookup (memoArray s a) j)
    ∧ Scope s' ref a (k + 1)
    ∧ snarkContext s' = snarkContext s
    ∧ memoizationContext s' = memoizationContext s
    ∧ proverValues (snarky s') = proverValues (snarky s)
    ∧ variables (snarky s) `prefix_of` variables (snarky s').
Proof.
  intros Hev Hscope Hslot Hlaw Hcheck Hrun.
  pose proof Hlaw as [Hsized Hdual].
  unfold callFields, memoizeWitness in Hrun.
  apply bind_inv in Hrun as (v & s1 & Hw & Hret). injection Hret as <- <-.
  destruct (direct s) eqn:Hd.
  - rewrite witness_direct in Hw by done.
    apply bind_inv in Hw as (x & s2 & Hm & Hret). injection Hret as <- <-.
    destruct (memoizedCompute_stored c s s2 ref a k x Hscope Hslot Hlaw Hm)
      as (slot & zs & -> & Hk & [Hzs Hlen] & Hrest).
    exists slot, zs. split; [done|]. split; [done|]. split; [|done].
    unfold clone. rewrite Hzs.
    rewrite !Hdual by (rewrite ?Hdual; rewrite length_fmap; done).
    apply fieldValue_constants.
  - unfold evaluating in Hev. rewrite Hd in Hev. simpl in Hev.
    rewrite witness_checked in Hw by done.
    apply bind_inv in Hw as (r0 & s4 & Htf & Hw).
    apply bind_inv in Hw as ([] & s5 & Hck & Hret). injection Hret as <- <-.
    apply try_finally_inv in Htf as (s3 & Hex & Hleave).
    apply Snarky_exists_inv in Hex as (fields & x & s2 & zs' & Hcb & Hread & -> & ->);
      [|done].
    apply bind_inv in Hcb as (x' & s2' & Hm & Hret).
    injection Hret as <- <- ->.
    destruct (memoizedCompute_stored c (entered s) s2 ref a k x')
      as (slot & zs & -> & Hk & [Hzs Hlen] & Hsame & Hframe & Hscope2 & Hsc2
          & Hm2 & Hp2 & Hpre2); [done..|].
    rewrite Hzs, Hdual in Hread by (by rewrite length_fmap).
    destruct (mapM_readField_values _ _ _ _ Hread) as [_ Hvals].
    rewrite fieldValue_constants in Hvals. apply fmap_Some_inj in Hvals as <-.
    rewrite (leave_entered s) in Hleave by done. injection Hleave as <-.
    match type of Hck with
    | check _ ?v ?st = _ =>
        destruct (Hcheck v) as [Hq Ht]; specialize (Hq st);
        specialize (Ht st); rewrite Hck in Hq, Ht
    end.
    simpl in Hq, Ht.
    destruct Hq as (Hq1 & Hq2 & Hq3 & Hq4). destruct Ht as [Ht1 Ht2].
    exists slot, zs.
    split; [by rewrite (memoArray_ext s2)|]. split; [done|].
    split.
    { simpl. rewrite Hdual by (by rewrite length_fmap, length_seq).
      apply (fieldValue_prefix
               (allocate (sizeInFields (wc_type c)) zs s2).2); [exact Ht2|].
      apply (allocate_values _ zs s2 Hlen). }
    split; [done|].
    split; [intros j Hj; rewrite (memoArray_ext s2) by done; by apply Hframe|].
    split; [by apply (Scope_ext s2)|].
    split; [done|]. split; [by rewrite Hq2|]. split; [by rewrite Ht1|].
    etrans; [exact Hpre2|]. etrans; [|exact Ht2]. simpl. by apply prefix_app_r.
Qed.

(** ** A pass in an evaluating mode *)

Lemma evaluating_ext (s s' : State) :
  snarkContext s' = snarkContext s →
  proverValues (snarky s') = proverValues (snarky s) →
  evaluating s' = evaluating s.
Proof.
  intros Hsc Hp. unfold evaluating. by rewrite (direct_snarkContext s), Hp.
Qed.

Lemma stored_sameType (c c' : WitnessCall) (slot : Memo) (zs : list Z) :
  sameType c c' → stored c slot zs → stored c' slot zs.
Proof. by intros []. Qed.

Lemma pass_evaluating (ref a : nat) (calls : list WitnessCall) :
  ∀ (s s' : State) (k : nat) (rs : list (list Field)),
    evaluating s = true →
    Scope s ref a k →
    (∀ i c, calls !! i = Some c →
       match js_lookup (memoArray s a) (k + i) with
       | Some slot => ∃ zs, stored c slot zs
       | None => Tame (wc_compute c)
       end) →
    Forall (λ c, Lawful (wc_type c) ∧ ∀ v, Tame (check (wc_type c) v)) calls →
    pass calls s = (Normal rs, s') →
    length rs = length calls
    ∧ (∀ j slot, js_lookup (memoArray s a) j = Some slot →
         js_lookup (memoArray s' a) j = Some slot)
    ∧ variables (snarky s) `prefix_of` variables (snarky s')
    ∧ ∀ i c r, calls !! i = Some c → rs !! i = Some r →
        ∃ slot zs,
          js_lookup (memoArray s' a) (k + i) = Some slot
          ∧ stored c slot zs
          ∧ fieldValue s' <$> r = Some <$> zs.
Proof.
  induction calls as [|c calls IH]; intros s s' k rs Hev Hscope Hslots Hlaw Hrun.
  - injection Hrun as <- <-. by repeat split.
  - apply Forall_cons in Hlaw as [[Hlawc Hcheck] Hlaw].
    unfold pass in Hrun. simpl in Hrun.
    apply bind_inv in Hrun as (r & s1 & Hcall & Hrun).
    apply bind_inv in Hrun as (rs' & s2 & Hrest & Hret).
    injection Hret as <- <-.
    pose proof (Hslots 0 c eq_refl) as Hslot0. rewrite Nat.add_0_r in Hslot0.
    destruct (callFields_evaluating c s s1 ref a k r Hev Hscope Hslot0 Hlawc
                Hcheck Hcall)
      as (slot & zs & Hk & Hst & Hval & Hsame & Hframe & Hscope1 & Hsc1 & Hm1
          & Hp1 & Hpre1).
    replace (k + 1) with (S k) in Hscope1 by lia.
    destruct (IH s1 s2 (S k) rs') as (Hlen & Hgrow & Hpre2 & Hrs);
      [by rewrite (evaluating_ext s) | done | | done | done |].
    { intros i c' Hc'. rewrite Hframe by lia.
      replace (S k + i) with (k + S i) by lia. by apply (Hslots (S i)). }
    assert (∀ j slot0, js_lookup (memoArray s a) j = Some slot0 →
                       js_lookup (memoArray s1 a) j = Some slot0) as Hgrow1.
    { intros j slot0 Hj. destruct (decide (j = k)) as [->|Hne].
      - by rewrite (Hsame slot0 Hj).
      - by rewrite Hframe. }
    split; [simpl; by rewrite Hlen|]. split; [by auto|].
    split; [by etrans|].
    intros [|i] c' r' Hc' Hr'; simpl in Hc', Hr'.
    + injection Hc' as <-. injection Hr' as <-. exists slot, zs.
      rewrite Nat.add_0_r. split; [by apply Hgrow|]. split; [done|].
      by apply (fieldValue_prefix s1).
    + replace (k + S i) with (S k + i) by lia. by apply Hrs.
Qed.

Lemma fmap_Constant_inj (zs zs' : list Z) :
  Constant <$> zs = Constant <$> zs' → zs = zs'.
Proof.
  revert zs'. induction zs as [|z zs IH]; intros [|z' zs']; try done.
  rewrite !fmap_cons. intros [= -> H]. by rewrite (IH zs' H).
Qed.

(** In evaluating modes, for lawful descriptors: two passes that complete
    return field elements with the same values at every index. *)
Lemma passes_evaluating (calls calls' : list WitnessCall)
    (s1 s1' s2 s2' : State) (rs rs' : list (list Field)) (a : nat)
    (bv bv' : option Field) :
  Forall2 sameType calls calls' →
  Forall (λ c, Tame (wc_compute c)) calls →
  Forall (λ c, Lawful (wc_type c) ∧ ∀ v, Tame (check (wc_type c) v)) calls →
  evaluating s1 = true →
  arrays s1 !! a = Some [] →
  memoizationContext_runWith (passContext a bv) (pass calls) s1
  = (Normal rs, s1') →
  evaluating s2 = true →
  arrays s2 !! a = arrays s1' !! a →
  memoizationContext_runWith (passContext a bv') (pass calls') s2
  = (Normal rs', s2') →
  Forall2 (λ r r', fieldValue s1' <$> r = fieldValue s2' <$> r') rs rs'.
Proof.
  intros Hsame Htame Hlaw Hev1 Hempty Hrun1 Hev2 Harr Hrun2.
  rewrite runWith_unfold in Hrun1, Hrun2.
  apply try_finally_inv in Hrun1 as (t1 & Hpass1 & Hleave1).
  apply try_finally_inv in Hrun2 as (t2 & Hpass2 & Hleave2).
  assert (∀ id t t', memoizationContext_leave id t = (Normal tt, t') →
            arrays t' = arrays t ∧ snarky t' = snarky t) as Hleave.
  { intros id t t'. unfold memoizationContext_leave.
    destruct (Context_leave id (memoizationContext t)); [|done].
    by intros [= <-]. }
  destruct (Hleave _ _ _ Hleave1) as [Ha1 Hs1].
  destruct (Hleave _ _ _ Hleave2) as [Ha2 Hs2].
  destruct (pass_evaluating (length (contexts s1)) a calls
              (scoped (passContext a bv) s1) t1 0 rs
              Hev1 (Scope_scoped a bv s1)) as (Hlen1 & _ & _ & Hrs1);
    [|done|exact Hpass1|].
  { intros i c Hc. unfold memoArray. simpl. rewrite Hempty. simpl.
    by apply (proj1 (Forall_lookup _ _) Htame i c). }
  assert (Forall (λ c, Lawful (wc_type c) ∧ ∀ v, Tame (check (wc_type c) v))
            calls') as Hlaw'.
  { clear -Hsame Hlaw. induction Hsame as [|c c' ? ? Hc _ IH]; [done|].
    apply Forall_cons in Hlaw as [Hl Hlaw]. constructor; [|by apply IH].
    by destruct Hc. }
  assert (memoArray (scoped (passContext a bv') s2) a = memoArray t1 a) as Hst.
  { unfold memoArray. simpl. by rewrite Harr, Ha1. }
  destruct (pass_evaluating (length (contexts s2)) a calls'
              (scoped (passContext a bv') s2) t2 0 rs'
              Hev2 (Scope_scoped a bv' s2)) as (Hlen2 & Hgrow2 & _ & Hrs2);
    [|done|exact Hpass2|].
  { intros i c' Hc'. rewrite Hst.
    destruct (Forall2_lookup_r _ _ _ _ _ Hsame Hc') as (c & Hc & Hcc').
    destruct (lookup_lt_is_Some_2 rs i) as [r Hr].
    { rewrite Hlen1. by apply lookup_lt_Some in Hc. }
    destruct (Hrs1 i c r Hc Hr) as (slot & zs & Hslot & Hstored & _).
    rewrite Hslot. exists zs. by apply (stored_sameType c). }
  apply Forall2_same_length_lookup. split.
  { rewrite Hlen1, Hlen2. by apply (Forall2_length _ _ _ Hsame). }
  intros i r r' Hr Hr'.
  destruct (lookup_lt_is_Some_2 calls i) as [c Hc].
  { rewrite <- Hlen1. by apply lookup_lt_Some in Hr. }
  destruct (Forall2_lookup_l _ _ _ _ _ Hsame Hc) as (c' & Hc' & Hcc').
  destruct (Hrs1 i c r Hc Hr) as (slot & zs & Hslot & [Hzs _] & Hval).
  destruct (Hrs2 i c' r' Hc' Hr') as (slot' & zs' & Hslot' & [Hzs' _] & Hval').
  change (0 + i) with i in Hslot, Hslot'.
  assert (slot' = slot) as ->.
  { rewrite <- Hst in Hslot. apply (Hgrow2 i slot) in Hslot.
    rewrite Hslot' in Hslot. by injection Hslot. }
  rewrite Hzs in Hzs'. apply fmap_Constant_inj in Hzs' as ->.
  assert (∀ (t t' : State) (fs : list Field), snarky t' = snarky t →
            fieldValue t' <$> fs = fieldValue t <$> fs) as Hfv.
  { intros t t' fs Hsn. apply list_fmap_ext. intros _ [z|j] _; [done|].
    simpl. by rewrite Hsn. }
  by rewrite (Hfv t1 s1'), (Hfv t2 s2'), Hval, Hval'.
Qed.

(** C1. Under a memoization record, the callback [memoizeWitness] hands to
    [witness] reuses the slot at the cursor when there is one, without
    calling [compute], and otherwise calls [compute], stores the field
    elements of its value, converted to constants, with the auxiliary data
    at the cursor; either way the cursor advances and the value delivered
    is rebuilt from the slot.

    Two passes make the same sequence of [memoizeWitness] calls under
    context objects that share one [memoized] array; the callbacks of the
    first pass leave the context stacks and the memoization store alone,
    those of the second pass are arbitrary. Suppose the first pass
    completes.

    Outside a checked computation its results are those rebuilt from the
    slots the array holds afterwards, one slot per call in order, and a
    second pass outside a checked computation, whatever random source it
    starts with, completes with the same field elements at every index
    without calling a callback: it draws no random value and stores
    nothing.

    More generally, let both passes run in a mode in which [witness]
    evaluates its callback (outside a checked computation, or inside one
    with a backend that evaluates witnesses), the first on an empty array,
    with lawful descriptors and with callbacks and checks that also leave
    the backend's mode and allocated variables alone. Then the field
    elements a completed second pass returns have, index by index, the
    values of those the first pass returned: they are the constants the
    first pass stored, or variables bound to them. *)
Theorem memoizeWitness_deterministic (calls calls' : list WitnessCall)
    (s1 s1' : State) (rs : list (list Field)) (a : nat) (bv : option Field) :
  Forall2 sameType calls calls' →
  Forall (λ c, Quiet (wc_compute c)) calls →
  memoizationContext_runWith (passContext a bv) (pass calls) s1
  = (Normal rs, s1') →
  (∀ (c : WitnessCall) (s : State) (ref k : nat),
     Scope s ref a k →
     match js_lookup (memoArray s a) k with
     | Some slot =>
         memoizedCompute (wc_type c) (wc_compute c) s
         = (Normal (fromFields (wc_type c) (m_fields slot) (m_aux slot)),
            set_contexts (alter advance ref (contexts s)) s)
     | None =>
         ∀ x s', memoizedCompute (wc_type c) (wc_compute c) s = (Normal x, s') →
           ∃ v s0 fields,
             wc_compute c s = (Normal v, s0)
             ∧ mapM Field_toConstant (toFields (wc_type c) v) s0
               = (Normal fields, s0)
             ∧ x = fromFields (wc_type c) fields
                     (toAuxiliary (wc_type c) (Some v))
             ∧ s' = set_contexts (alter advance ref (contexts s0))
                      (set_arrays
                         (alter
                            (λ l, js_assign l k
                                    {| m_fields := fields;
                                       m_aux := toAuxiliary (wc_type c)
                                                  (Some v) |})
                            a (arrays s0)) s0)
     end)
  ∧ (direct s1 = true →
     expected (memoArray s1' a) 0 calls = Some rs
     ∧ ∀ (s2 : State) (bv' : option Field),
         direct s2 = true →
         arrays s2 !! a = arrays s1' !! a →
         ∃ s2',
           memoizationContext_runWith (passContext a bv') (pass calls') s2
           = (Normal rs, s2')
           ∧ arrays s2' = arrays s2
           ∧ randomDrawn s2' = randomDrawn s2)
  ∧ (evaluating s1 = true →
     arrays s1 !! a = Some [] →
     Forall (λ c, Tame (wc_compute c)) calls →
     Forall (λ c, Lawful (wc_type c) ∧ ∀ v, Tame (check (wc_type c) v)) calls →
     ∀ (s2 s2' : State) (rs' : list (list Field)) (bv' : option Field),
       evaluating s2 = true →
       arrays s2 !! a = arrays s1' !! a →
       memoizationContext_runWith (passContext a bv') (pass calls') s2
       = (Normal rs', s2') →
       Forall2 (λ r r', fieldValue s1' <$> r = fieldValue s2' <$> r') rs rs').
Proof.
  intros Hsame Hquiet Hrun. split; [|split].
  - intros c s ref k Hscope.
    destruct (js_lookup (memoArray s a) k) as [slot|] eqn:Hslot.
    + by apply (memoizedCompute_populated _ _ s ref a k slot).
    + intros x s' Hx.
      destruct (memoizedCompute_empty _ _ s s' ref a k x Hscope Hslot Hx)
        as (v & s0 & fields & _ & Hrest).
      by exists v, s0, fields.
  - intros Hd. by apply (passes_direct calls calls' s1 s1' rs a bv).
  - intros Hev Hempty Htame Hlaw s2 s2' rs' bv' Hev2 Harr Hrun2.
    by apply (passes_evaluating calls calls' s1 s1' s2 s2' rs rs' a bv bv').
Qed.

Lemma Tame_Field_random : Tame Field_random.
Proof. split; [apply Quiet_Field_random|]. by intros s. Qed.

Lemma Tame_randomBit : Tame randomBit.
Proof. split; [apply Quiet_randomBit|]. by intros s. Qed.

Lemma Lawful_FieldType : Lawful FieldType.
Proof. split; [done|]. by intros [|x [|y fields]] aux. Qed.

Lemma Lawful_BoolType : Lawful BoolType.
Proof. split; [done|]. by intros [|x [|y fields]] aux. Qed.

Lemma Tame_check_FieldType (v : option Field) : Tame (check FieldType v).
Proof. by repeat split. Qed.

Lemma Tame_check_BoolType (v : option Field) : Tame (check BoolType v).
Proof.
  assert (∀ s, (check BoolType v s).2 = s) as H.
  { intros s. by destruct v as [[[|[]|]|]|]. }
  split; intros s; rewrite H; by repeat split.
Qed.

Lemma memoizeWitness_deterministic_witness :
  memoizationContext_runWith (passContext 0 None) (pass sampleCalls) fresh
  = (Normal [[Constant 1000]; [Constant 1]; [Constant 1002]], afterFirstPass)
  ∧ (∃ s2',
       memoizationContext_runWith (passContext 0 None) (pass sampleCalls')
         (later afterFirstPass)
       = (Normal [[Constant 1000]; [Constant 1]; [Constant 1002]], s2'))
  ∧ memoizationContext_runWith (passContext 0 None) (pass sampleCalls')
      (proverOf afterFirstPass)
    = (Normal [[Var 0]; [Var 1]; [Var 2]], afterProving)
  ∧ Forall2 (λ r r', fieldValue afterFirstPass <$> r
                     = fieldValue afterProving <$> r')
      [[Constant 1000]; [Constant 1]; [Constant 1002]]
      [[Var 0]; [Var 1]; [Var 2]].
Proof.
  assert (Forall2 sameType sampleCalls sampleCalls') as Hsame
    by repeat constructor.
  assert (Forall (λ c, Quiet (wc_compute c)) sampleCalls) as Hquiet.
  { constructor; [apply Quiet_Field_random|].
    constructor; [apply Quiet_randomBit|].
    constructor; [apply Quiet_Field_random|]. constructor. }
  assert (memoizationContext_runWith (passContext 0 None) (pass sampleCalls)
            fresh
          = (Normal [[Constant 1000]; [Constant 1]; [Constant 1002]],
             afterFirstPass)) as Hrun by (vm_compute; reflexivity).
  destruct (memoizeWitness_deterministic sampleCalls sampleCalls' fresh
              afterFirstPass _ 0 None Hsame Hquiet Hrun)
    as (_ & Hdirect & Hany).
  split; [exact Hrun|]. split; [|split].
  - destruct (Hdirect eq_refl) as [_ H].
    destruct (H (later afterFirstPass) None) as (s2' & Hs2' & _);
      [reflexivity | reflexivity |].
    by exists s2'.
  - vm_compute; reflexivity.
  - apply (Hany eq_refl eq_refl) with (s2 := proverOf afterFirstPass)
                                      (bv' := None).
    + constructor; [apply Tame_Field_random|].
      constructor; [apply Tame_randomBit|].
      constructor; [apply Tame_Field_random|]. constructor.
    + constructor; [split; [apply Lawful_FieldType|apply Tame_check_FieldType]|].
      constructor; [split; [apply Lawful_BoolType|apply Tame_check_BoolType]|].
      constructor; [split; [apply Lawful_FieldType|apply Tame_check_FieldType]|].
      constructor.
    + reflexivity.
    + reflexivity.
    + vm_compute; reflexivity.
Defined.

(** ** Worked examples *)

Example witness_outside :
  witness FieldType (ret (Constant 7)) idle = (Normal (Constant 7), idle).
Proof. reflexivity. Qed.

Example witness_as_prover :
  (witness FieldType (ret (Constant 7)) proving).1 = Normal (Var 0)
  ∧ variables (snarky (witness FieldType (ret (Constant 7)) proving).2)
    = [Some 7%Z]
  ∧ snarkContext (witness FieldType (ret (Constant 7)) proving).2
    = snarkContext proving.
Proof. repeat split. Qed.

Example witness_symbolic :
  (witness BoolType (throw (Error "never called")) (analysing idle)).1
  = Normal (Var 0)
  ∧ variables
      (snarky (witness BoolType (throw (Error "never called"))
                 (analysing idle)).2)
    = [None].
Proof. repeat split. Qed.

Example witness_check_fails :
  (witness BoolType (ret (Constant 2)) idle).1 = Normal (Constant 2)
  ∧ (check BoolType (Some (Constant 2)) idle).1
    = Throw (Error "Bool.check: the value is neither 0 nor 1").
Proof. repeat split. Qed.

Example memoizeWitness_fills_slot :
  (memoizeWitness FieldType Field_random recording).1 = Normal (Constant 1000)
  ∧ arrays (memoizeWitness FieldType Field_random recording).2
    = [[Some {| m_fields := [Constant 1000]; m_aux := AArray [] |}]]
  ∧ currentIndex <$> contexts (memoizeWitness FieldType Field_random recording).2
    = [1].
Proof. repeat split. Qed.

Example js_assign_grows :
  js_assign [Some 1; None] 4 7 = [Some 1; None; None; None; Some 7]
  ∧ js_lookup (js_assign [Some 1; None] 4 7) 3 = None.
Proof. repeat split. Qed.

Example gatesFromJson_sample :
  gatesFromJson bytesToBigInt_le
    {| gates := [sampleGate]; public_input_size := 2 |}
  = (2, [{| type_ := "Generic";
            wires := [{| row := 0; col := 0 |}; {| row := 0; col := 1 |}];
            coeffs := ["1"; "511"; "0"] |}]).
Proof. reflexivity. Qed.

Example provableArray_toJSON_missing :
  (default (λ _, throw (Error "absent"))
     (toJSON (provableArray FieldType 2)) [Constant 1; Constant 2] idle).1
  = Throw (Error "circuitArray.toJSON: element type has no toJSON method").
Proof. reflexivity. Qed.

Example provableArray_toJSON_present :
  (default (λ _, throw (Error "absent"))
     (toJSON (provableArray BoolType 2)) [Constant 1; Constant 0] idle).1
  = Normal [true; false].
Proof. reflexivity. Qed.

(** * Further properties of the code *)

(** ** The array combinator beyond its declared length *)

Lemma fromFields_loop_length {T J} (type : Provable T J) (size : nat)
    (fields : list Field) (aux : Any) (n i offset : nat) :
  length (fromFields_loop type size fields aux n i offset) = n.
Proof.
  revert i offset. induction n as [|n IH]; intros i offset; simpl; [done|].
  by rewrite IH.
Qed.

Lemma fromFields_loop_lookup {T J} (type : Provable T J) (size : nat)
    (fields : list Field) (aux : Any) (n i offset j : nat) :
  j < n →
  fromFields_loop type size fields aux n i offset !! j
  = Some (fromFields type
            (slice fields (offset + j * size) (offset + j * size + size))
            (Any_index aux (i + j))).
Proof.
  revert i offset j. induction n as [|n IH]; intros i offset j Hj; [lia|].
  destruct j as [|j]; simpl.
  - by rewrite !Nat.add_0_r.
  - rewrite IH by lia. do 3 f_equal; lia.
Qed.

(** X1. [fromFields] of an array descriptor never fails and never looks at
    the number of field elements it is given: the result has exactly
    [length] entries, and entry [i] is the element's [fromFields] on the
    [i]-th chunk of [sizeInFields] field elements (shorter, or empty, when
    the field elements run out) and on [aux?.[i]]. *)
Theorem provableArray_fromFields_entries {T J} (type : Provable T J) (n : nat)
    (fields : list Field) (aux : Any) :
  length (fromFields (provableArray type n) fields aux) = n
  ∧ ∀ i, i < n →
      fromFields (provableArray type n) fields aux !! i
      = Some (fromFields type
                (slice fields (i * sizeInFields type)
                   (i * sizeInFields type + sizeInFields type))
                (Any_index aux i)).
Proof.
  split.
  - apply fromFields_loop_length.
  - intros i Hi. simpl. by rewrite fromFields_loop_lookup.
Qed.

(** The chunk of a sized element inside the concatenation. *)
Lemma slice_concat_sized {T J} (type : Provable T J) (pre post : list T)
    (x : T) :
  Forall (Sized type) pre → Sized type x →
  slice (concat (toFields type <$> pre ++ x :: post))
    (length pre * sizeInFields type)
    (length pre * sizeInFields type + sizeInFields type)
  = toFields type x.
Proof.
  intros Hpre Hx. unfold slice.
  rewrite fmap_app, concat_app, fmap_cons, concat_cons.
  rewrite drop_app_length'
    by (rewrite <- (length_concat_sized type pre Hpre); done).
  replace (length pre * sizeInFields type + sizeInFields type
           - length pre * sizeInFields type) with (sizeInFields type) by lia.
  rewrite <- Hx. by rewrite take_app_length.
Qed.

(** Entry [i] of what [fromFields] rebuilds from a serialized array. *)
Lemma provableArray_clone_lookup {T J} (type : Provable T J) (n : nat)
    (xs : list T) (i : nat) (x : T) :
  i < n → xs !! i = Some x →
  Forall (Sized type) (take (S i) xs) →
  clone (provableArray type n) xs !! i = Some (clone type x).
Proof.
  intros Hi Hx Hsized. unfold clone at 1. simpl.
  rewrite fromFields_loop_lookup by done. rewrite !Nat.add_0_l. f_equal.
  pose proof (take_drop_middle xs i x Hx) as Hsplit.
  pose proof (lookup_lt_Some _ _ _ Hx) as Hlt.
  assert (Hlen : length (take i xs) = i) by (rewrite length_take; lia).
  rewrite (take_S_r _ _ _ Hx) in Hsized.
  apply Forall_app in Hsized as [Hpre Hsx].
  rewrite Forall_singleton in Hsx.
  pose proof (slice_concat_sized type _ (drop (S i) xs) x Hpre Hsx) as Hslice.
  rewrite Hsplit, Hlen in Hslice. rewrite Hslice.
  unfold Any_index. by rewrite <- list_fmap_compose, list_lookup_fmap, Hx.
Qed.

(** X2. [clone] with an array descriptor clones the entries one by one, and
    an array longer than the declared length is cut without an error: the
    result holds the clones of the first [length] entries. Only the size
    invariant is needed, and only of those entries; where they also obey
    the round-trip law, serializing and rebuilding returns them as they
    were. *)
Theorem provableArray_clone_entries {T J} (type : Provable T J)
    (n : nat) (xs : list T) :
  n ≤ length xs →
  Forall (Sized type) (take n xs) →
  clone (provableArray type n) xs = clone type <$> take n xs
  ∧ (Forall (RoundTrip type) (take n xs) →
     fromFields (provableArray type n)
       (toFields (provableArray type n) xs)
       (toAuxiliary (provableArray type n) (Some xs))
     = take n xs).
Proof.
  intros Hn Hsized.
  assert (Hclone : clone (provableArray type n) xs = clone type <$> take n xs).
  { apply list_eq. intros i. rewrite list_lookup_fmap.
    destruct (decide (i < n)) as [Hi|Hi].
    - rewrite lookup_take_lt by done.
      destruct (lookup_lt_is_Some_2 xs i ltac:(lia)) as [x Hx].
      rewrite Hx. simpl. apply provableArray_clone_lookup; [done..|].
      replace (take (S i) xs) with (take (S i) (take n xs))
        by (rewrite take_take; f_equal; lia).
      by apply Forall_take.
    - rewrite (lookup_ge_None_2 (take n xs)) by (rewrite length_take; lia).
      apply lookup_ge_None_2. unfold clone. simpl.
      rewrite fromFields_loop_length. lia. }
  split; [done|]. intros Hrt.
  change (clone (provableArray type n) xs = take n xs). rewrite Hclone.
  rewrite <- (list_fmap_id (take n xs)) at 2.
  apply Forall_fmap_ext_1. eapply Forall_impl; [exact Hrt|].
  intros x Hx. exact Hx.
Qed.

Lemma provableArray_clone_entries_witness :
  clone (provableArray FieldType 2) [Constant 4; Var 1; Constant 6]
  = clone FieldType <$> take 2 [Constant 4; Var 1; Constant 6].
Proof.
  destruct (provableArray_clone_entries FieldType 2
              [Constant 4; Var 1; Constant 6]) as [H _].
  - simpl. lia.
  - repeat constructor.
  - exact H.
Defined.

(** X3. When the array is [undefined], which is what [witness] hands over
    while no prover value exists, the auxiliary data of an array descriptor
    holds [length] copies of the element's auxiliary data for [undefined],
    and [fromFields] on it rebuilds every entry with that placeholder. *)
Theorem provableArray_placeholder_layout {T J} (type : Provable T J) (n : nat)
    (fields : list Field) :
  toAuxiliary (provableArray type n) None
  = AArray (replicate n (toAuxiliary type None))
  ∧ ∀ i, i < n →
      fromFields (provableArray type n) fields
        (toAuxiliary (provableArray type n) None) !! i
      = Some (fromFields type
                (slice fields (i * sizeInFields type)
                   (i * sizeInFields type + sizeInFields type))
                (toAuxiliary type None)).
Proof.
  assert (Haux : toAuxiliary (provableArray type n) None
                 = AArray (replicate n (toAuxiliary type None))).
  { simpl. by rewrite fmap_replicate. }
  split; [done|]. intros i Hi.
  rewrite Haux. simpl. rewrite fromFields_loop_lookup by done.
  simpl. by rewrite lookup_replicate_2.
Qed.

(** ** [check] of the array combinator *)




Lemma check_loop_entries {T J} (type : Provable T J) (xs : list T) (n : nat) :
  ∀ i s, i + n ≤ length xs →
    check_loop type xs n i s
    = (_ <- mapM (λ x, check type (Some x)) (take n (drop i xs)) ;; ret tt) s.
Proof.
  induction n as [|n IH]; intros i s Hn; [done|].
  destruct (lookup_lt_is_Some_2 xs i ltac:(lia)) as [x Hx].
  rewrite (drop_S _ _ _ Hx). simpl. unfold bind at 1 2 3. rewrite Hx.
  destruct (check type (Some x) s) as [[[]|e] s1]; [|done].
  rewrite IH by lia. unfold bind, ret.
  by destruct (mapM _ _ s1) as [[us|e] s2].
Qed.

(** X5. On an array of the declared length, [check] applies the element's
    [check] to every entry, in order, each in the state the previous one
    left. *)
Theorem provableArray_check_entries {T J} (type : Provable T J) (n : nat)
    (xs : list T) (s : State) :
  length xs = n →
  check (provableArray type n) (Some xs) s
  = (_ <- mapM (λ x, check type (Some x)) xs ;; ret tt) s.
Proof.
  intros Hn. simpl. rewrite check_loop_entries by lia.
  by rewrite drop_0, <- Hn, firstn_all.
Qed.

Lemma provableArray_check_entries_witness :
  check (provableArray BoolType 2) (Some [Constant 1; Var 0]) idle
  = (_ <- mapM (λ x, check BoolType (Some x)) [Constant 1; Var 0] ;; ret tt)
      idle.
Proof.
  apply (provableArray_check_entries BoolType 2 [Constant 1; Var 0] idle).
  reflexivity.
Defined.

Lemma check_loop_app {T J} (type : Provable T J) (xs : list T) (n m : nat) :
  ∀ i s, check_loop type xs (n + m) i s
         = (_ <- check_loop type xs n i ;; check_loop type xs m (i + n)) s.
Proof.
  induction n as [|n IH]; intros i s.
  - simpl. unfold bind, ret. by rewrite Nat.add_0_r.
  - simpl. unfold bind at 1 2 3.
    destruct (check type (xs !! i) s) as [[[]|e] s1]; [|done].
    rewrite IH. unfold bind. by replace (i + S n) with (S i + n) by lia.
Qed.

(** X6. The first entry whose [check] throws ends the array's [check] with
    that exception, in the state that entry's [check] left: the entries
    after it are not checked. *)
Theorem provableArray_check_first_failure {T J} (type : Provable T J)
    (n : nat) (pre post : list T) (x : T) (us : list unit) (e : Exn)
    (s s1 s2 : State) :
  length pre < n →
  mapM (λ x, check type (Some x)) pre s = (Normal us, s1) →
  check type (Some x) s1 = (Throw e, s2) →
  check (provableArray type n) (Some (pre ++ x :: post)) s = (Throw e, s2).
Proof.
  intros Hn Hpre Hx. simpl.
  replace n with (length pre + S (n - S (length pre))) by lia.
  rewrite check_loop_app. unfold bind.
  rewrite check_loop_entries by (rewrite length_app; simpl; lia).
  rewrite drop_0, take_app_length. unfold bind, ret. rewrite Hpre.
  simpl. unfold bind. rewrite list_lookup_middle by done. by rewrite Hx.
Qed.

Lemma provableArray_check_first_failure_witness :
  check (provableArray BoolType 3)
    (Some ([Constant 1] ++ Constant 2 :: [Constant 5])) idle
  = (Throw (Error "Bool.check: the value is neither 0 nor 1"), idle).
Proof.
  apply (provableArray_check_first_failure BoolType 3 [Constant 1]
           [Constant 5] (Constant 2) [tt]
           (Error "Bool.check: the value is neither 0 nor 1") idle idle idle).
  - simpl. lia.
  - reflexivity.
  - reflexivity.
Defined.

(** ** The JSON codec of the array combinator *)

(** X7. For an element descriptor with both JSON methods, the array's
    [fromJSON] undoes its [toJSON] on every array whose entries the
    element's methods take there and back; the declared length plays no
    part in either direction. *)
Theorem provableArray_JSON_round_trip {T J} (type : Provable T J) (n : nat)
    (toJSON_ : T → M J) (fromJSON_ : J → M T) (encode : T → J) (xs : list T) :
  toJSON type = Some toJSON_ →
  fromJSON type = Some fromJSON_ →
  (∀ x, x ∈ xs → ∀ s, toJSON_ x s = (Normal (encode x), s)
                      ∧ fromJSON_ (encode x) s = (Normal x, s)) →
  ∃ f g, toJSON (provableArray type n) = Some f
         ∧ fromJSON (provableArray type n) = Some g
         ∧ ∀ s, f xs s = (Normal (encode <$> xs), s)
                ∧ g (encode <$> xs) s = (Normal xs, s).
Proof.
  intros Hto Hfrom H. eexists _, _. split; [reflexivity|].
  split; [reflexivity|]. intros s. cbv beta. rewrite Hto, Hfrom. split.
  - apply mapM_pure. intros x Hx s0. by apply H.
  - clear Hto Hfrom. induction xs as [|x xs IH] in s, H |- *; [done|].
    rewrite fmap_cons. simpl. unfold bind.
    destruct (H x ltac:(left) s) as [_ ->].
    by rewrite IH by (intros y Hy; apply H; by right).
Qed.

Lemma provableArray_JSON_round_trip_witness :
  ∃ f g, toJSON (provableArray BoolType 5) = Some f
         ∧ fromJSON (provableArray BoolType 5) = Some g
         ∧ ∀ s, f [Constant 1; Constant 0] s = (Normal [true; false], s)
                ∧ g [true; false] s = (Normal [Constant 1; Constant 0], s).
Proof.
  assert (Hin : ∀ x, x ∈ [Constant 1; Constant 0] → ∀ s,
            ret (bool_decide (x = Constant 1)) s
            = (Normal (bool_decide (x = Constant 1)), s)
            ∧ ret (Constant (if bool_decide (x = Constant 1) then 1 else 0)) s
              = (Normal x, s)).
  { intros x Hx s.
    apply elem_of_cons in Hx as [->|Hx]; [by split|].
    apply elem_of_cons in Hx as [->|Hx]; [by split|].
    by apply elem_of_nil in Hx. }
  exact (provableArray_JSON_round_trip BoolType 5
           (λ x, ret (bool_decide (x = Constant 1)))
           (λ b : bool, ret (Constant (if b then 1 else 0)))
           (λ x, bool_decide (x = Constant 1)) [Constant 1; Constant 0]
           eq_refl eq_refl Hin).
Defined.

(** X23. [toFields] of an array descriptor serializes every entry it is
    given and takes no notice of the declared length: for an array of
    another length the field elements are not [sizeInFields] many, and no
    error is raised. *)
Theorem provableArray_toFields_any_length {T J} (type : Provable T J)
    (n : nat) (xs : list T) :
  Forall (Sized type) xs →
  length (toFields (provableArray type n) xs) = length xs * sizeInFields type
  ∧ (length xs ≠ n → 0 < sizeInFields type →
     length (toFields (provableArray type n) xs)
     ≠ sizeInFields (provableArray type n)).
Proof.
  intros Hsized.
  assert (Hlen : length (toFields (provableArray type n) xs)
                 = length xs * sizeInFields type)
    by (simpl; by apply length_concat_sized).
  split; [done|]. intros Hn Hsize. rewrite Hlen. simpl. nia.
Qed.

Lemma provableArray_toFields_any_length_witness :
  length (toFields (provableArray FieldType 5) [Constant 4; Var 1]) = 2
  ∧ length (toFields (provableArray FieldType 5) [Constant 4; Var 1])
    ≠ sizeInFields (provableArray FieldType 5).
Proof.
  destruct (provableArray_toFields_any_length FieldType 5
              [Constant 4; Var 1]) as [H1 H2].
  - repeat constructor.
  - split; [exact H1|]. apply H2; simpl; lia.
Defined.

(** ** The hash-input codec of the array combinator *)

(** X24. For an element descriptor with a [toInput] method, the array's
    [toInput] starts from [HashInput.empty] and appends the inputs of the
    entries from left to right; the declared length plays no part. *)
Theorem provableArray_toInput_fold {T J} (type : Provable T J) (n : nat)
    (toInput_ : T → M HashInput) (h : T → HashInput) (xs : list T) :
  toInput type = Some toInput_ →
  (∀ x, x ∈ xs → ∀ s, toInput_ x s = (Normal (h x), s)) →
  ∃ f, toInput (provableArray type n) = Some f
       ∧ ∀ s, f xs s
              = (Normal (foldl HashInput_append HashInput_empty (h <$> xs)), s).
Proof.
  intros Hto H. eexists. split; [reflexivity|]. intros s. cbv beta.
  rewrite Hto. by apply reduce_append_pure.
Qed.

Lemma provableArray_toInput_fold_witness :
  ∃ f, toInput (provableArray BoolType 2) = Some f
       ∧ ∀ s, f [Constant 1; Var 4] s
              = (Normal {| h_fields := [];
                           h_packed := [(Constant 1, 1); (Var 4, 1)] |}, s).
Proof.
  exact (provableArray_toInput_fold BoolType 2
           (λ x, ret {| h_fields := []; h_packed := [(x, 1)] |})
           (λ x, {| h_fields := []; h_packed := [(x, 1)] |})
           [Constant 1; Var 4] eq_refl (λ x _ s, eq_refl)).
Defined.

(** ** More about [witness] *)

Lemma inBlock_entered (s : State) : inBlock (entered s) = true.
Proof. reflexivity. Qed.

Lemma bind_ext_at {A B} (m m' : M A) (k : A → M B) (s : State) :
  m s = m' s → (x <- m ;; k x) s = (x <- m' ;; k x) s.
Proof. intros H. unfold bind. by rewrite H. Qed.

(** The value [witness] builds from placeholders: [sizeInFields] fresh
    variables and the auxiliary data for [undefined]. *)
Lemma witness_unevaluated {T J} (type : Provable T J) (compute : M T)
    (s : State) :
  direct s = false →
  proverValues (snarky s) = false →
  witness type compute s
  = (let value :=
       fromFields type
         (Var <$> seq (length (variables (snarky s))) (sizeInFields type))
         (toAuxiliary type None) in
     _ <- check type (Some value) ;; ret value)
      (set_snarkContext (snarkContext s)
         (allocate (sizeInFields type) [] (entered s)).2).
Proof.
  intros Hdirect Hmode. rewrite witness_checked by done.
  unfold bind at 1. unfold try_finally, Snarky_exists. unfold bind at 1.
  unfold gets. change (proverValues (snarky (entered s))) with
    (proverValues (snarky s)). rewrite Hmode.
  unfold bind at 1. unfold allocate at 1. unfold ret at 1.
  rewrite leave_entered by reflexivity. reflexivity.
Qed.

(** X8. Inside a checked computation, outside a witness block, with a
    backend that does not evaluate witnesses (compiling, analysing),
    [witness] never calls its callback: the value is rebuilt from
    [sizeInFields] fresh variables and [toAuxiliary(undefined)], it is
    checked, and the call is the same whatever the callback is. *)
Theorem witness_without_prover {T J} (type : Provable T J) (compute : M T)
    (s : State) :
  checked s = true → inBlock s = false →
  proverValues (snarky s) = false →
  witness type compute s
  = (let value :=
       fromFields type
         (Var <$> seq (length (variables (snarky s))) (sizeInFields type))
         (toAuxiliary type None) in
     _ <- check type (Some value) ;; ret value)
      (set_snarkContext (snarkContext s)
         (allocate (sizeInFields type) [] (entered s)).2)
  ∧ ∀ compute' : M T, witness type compute s = witness type compute' s.
Proof.
  intros Hc Hb Hmode. pose proof (direct_false s Hc Hb) as Hdirect.
  split; [by apply witness_unevaluated|].
  intros compute'. by rewrite !witness_unevaluated.
Qed.

Lemma witness_without_prover_witness :
  witness BoolType (throw (Error "never called")) (analysing idle)
  = witness BoolType (ret (Constant 2)) (analysing idle).
Proof.
  destruct (witness_without_prover BoolType (throw (Error "never called"))
              (analysing idle)) as [_ H].
  - reflexivity.
  - reflexivity.
  - reflexivity.
  - apply H.
Defined.

(** X9. A [witness] call that the callback of another [witness] call makes
    first finds the witness block entered and takes the direct branch: it
    allocates nothing and checks nothing. *)
Theorem witness_nested {T J T' J'} (type : Provable T J)
    (type' : Provable T' J') (compute' : M T') (k : T' → M T) (s : State) :
  checked s = true → inBlock s = false →
  witness type (x <- witness type' compute' ;; k x) s
  = witness type (x <- (value <- compute' ;; ret (clone type' value)) ;; k x) s.
Proof.
  intros Hc Hb. pose proof (direct_false s Hc Hb) as Hdirect.
  rewrite !witness_checked by done.
  apply bind_ext_at. cbv beta. unfold try_finally.
  rewrite (Snarky_exists_ext _ _
             (proverValue <- (x <- (value <- compute' ;; ret (clone type' value)) ;; k x) ;;
              ret (toFields type proverValue, proverValue))); [done|].
  do 2 apply bind_ext_at.
  apply witness_direct.
  unfold direct. by rewrite inBlock_entered, orb_true_r.
Qed.

Lemma witness_nested_witness :
  witness FieldType (x <- witness BoolType (ret (Constant 2)) ;; ret x) proving
  = witness FieldType
      (x <- (value <- ret (Constant 2) ;; ret (clone BoolType value)) ;; ret x)
      proving.
Proof.
  apply (witness_nested FieldType BoolType (ret (Constant 2)) (λ x, ret x)
           proving).
  - reflexivity.
  - reflexivity.
Defined.

Lemma fieldValue_ext (s s' : State) (x : Field) :
  snarky s' = snarky s → fieldValue s' x = fieldValue s x.
Proof. intros H. destruct x; simpl; by rewrite ?H. Qed.

(** What the backend returns to [witness] as the prover. *)
Lemma Snarky_exists_evaluated {X} (size : nat) (compute : M (list Field * X))
    (s s1 : State) (fields : list Field) (x : X) (zs : list Z) :
  proverValues (snarky s) = true →
  compute s = (Normal (fields, x), s1) →
  mapM readField fields s1 = (Normal zs, s1) →
  Snarky_exists size compute s
  = (Normal (Var <$> seq (length (variables (snarky s1))) size, Some x),
     (allocate size zs s1).2).
Proof.
  intros Hmode Hc Hzs. unfold Snarky_exists.
  rewrite (bind_Normal _ _ s s true) by (unfold gets; by rewrite Hmode).
  rewrite (bind_Normal _ _ _ _ _ Hc). simpl.
  rewrite (bind_Normal _ _ _ _ _ Hzs). reflexivity.
Qed.

(** X10. As the prover, inside a checked computation and outside a witness
    block, [witness] rebuilds its result from [sizeInFields] variables that
    did not exist before and from the auxiliary data of the callback's
    value, and then checks it; when the callback's value serializes to
    [sizeInFields] field elements, the new variables carry their values in
    order. *)
Theorem witness_as_prover_values {T J} (type : Provable T J) (compute : M T)
    (s s1 : State) (proverValue : T) (zs : list Z) :
  checked s = true → inBlock s = false →
  proverValues (snarky s) = true →
  compute (entered s) = (Normal proverValue, s1) →
  snarkContext s1 = snarkContext (entered s) →
  mapM readField (toFields type proverValue) s1 = (Normal zs, s1) →
  witness type compute s
  = (_ <- check type
            (Some (fromFields type
                     (Var <$> seq (length (variables (snarky s1)))
                                (sizeInFields type))
                     (toAuxiliary type (Some proverValue)))) ;;
     ret (fromFields type
            (Var <$> seq (length (variables (snarky s1))) (sizeInFields type))
            (toAuxiliary type (Some proverValue))))
      (set_snarkContext (snarkContext s)
         (allocate (sizeInFields type) zs s1).2)
  ∧ Forall (λ x, fieldValue s1 x = None)
      (Var <$> seq (length (variables (snarky s1))) (sizeInFields type))
  ∧ (length zs = sizeInFields type →
     fieldValue
       (set_snarkContext (snarkContext s)
          (allocate (sizeInFields type) zs s1).2)
     <$> (Var <$> seq (length (variables (snarky s1))) (sizeInFields type))
     = Some <$> zs).
Proof.
  intros Hc Hb Hmode Hcompute Hbal Hzs.
  pose proof (direct_false s Hc Hb) as Hdirect.
  split; [|split].
  - rewrite witness_checked by done.
    assert (E : try_finally
                  (Snarky_exists (sizeInFields type)
                     (proverValue <- compute ;;
                      ret (toFields type proverValue, proverValue)))
                  (snarkContext_leave (nextId s)) (entered s)
                = (Normal (Var <$> seq (length (variables (snarky s1)))
                                     (sizeInFields type), Some proverValue),
                   set_snarkContext (snarkContext s)
                     (allocate (sizeInFields type) zs s1).2)).
    { unfold try_finally.
      rewrite (Snarky_exists_evaluated _ _ (entered s) s1
                 (toFields type proverValue) proverValue zs);
        [| exact Hmode
         | by rewrite (bind_Normal _ _ _ _ _ Hcompute)
         | exact Hzs].
      by rewrite leave_entered. }
    by rewrite (bind_Normal
                  (λ _, try_finally
                          (Snarky_exists (sizeInFields type)
                             (proverValue <- compute ;;
                              ret (toFields type proverValue, proverValue)))
                          (snarkContext_leave (nextId s)) (entered s))
                  _ s _ _ E).
  - apply Forall_fmap, Forall_forall. intros i Hi. simpl.
    apply elem_of_seq in Hi. by rewrite lookup_ge_None_2 by lia.
  - intros Hlen. rewrite <- (allocate_values _ zs s1 Hlen).
    apply list_fmap_ext. intros _ x _. by apply fieldValue_ext.
Qed.

Lemma witness_as_prover_values_witness :
  witness FieldType (ret (Constant 7)) proving
  = (_ <- check FieldType (Some (Var 0)) ;; ret (Var 0))
      (set_snarkContext (snarkContext proving)
         (allocate 1 [7%Z] (entered proving)).2).
Proof.
  destruct (witness_as_prover_values FieldType (ret (Constant 7)) proving
              (entered proving) (Constant 7) [7%Z]) as [H _].
  - reflexivity.
  - reflexivity.
  - reflexivity.
  - reflexivity.
  - reflexivity.
  - reflexivity.
  - exact H.
Defined.

(** ** More about the memoization layer *)

(** The steps of [memoizedCompute] up to the callback, on an empty slot. *)
Lemma memoizedCompute_empty_unfold {T J} (type : Provable T J)
    (compute : M T) (s : State) (ref a k : nat) :
  Scope s ref a k →
  is_Some (arrays s !! a) →
  js_lookup (memoArray s a) k = None →
  memoizedCompute type compute s
  = (currentValue <-
       (value <- compute ;;
        fields <- mapM Field_toConstant (toFields type value) ;;
        _ <- array_write a k
               {| m_fields := fields; m_aux := toAuxiliary type (Some value) |} ;;
        ret {| m_fields := fields; m_aux := toAuxiliary type (Some value) |}) ;;
     _ <- update ref advance ;;
     ret (fromFields type (m_fields currentValue) (m_aux currentValue))) s.
Proof.
  intros (Hget & c & Href & Ha & Hk) [l Harr] Hslot.
  unfold memoArray in Hslot. rewrite Harr in Hslot. simpl in Hslot.
  unfold memoizedCompute.
  rewrite (bind_Normal _ _ s s true)
    by (unfold memoizationContext_has, gets; by rewrite (Context_get_has _ _ Hget)).
  simpl.
  rewrite (bind_Normal _ _ s s ref)
    by (unfold memoizationContext_get; by rewrite Hget).
  rewrite (bind_Normal _ _ s s c) by (unfold deref; by rewrite Href).
  rewrite (bind_Normal _ _ s s None)
    by (unfold array_read; by rewrite Ha, Harr, Hk, Hslot).
  by rewrite Ha, Hk.
Qed.

(** X11. When the slot at the cursor is empty and the callback throws, or
    its value has a field element that cannot be made a constant,
    [memoizeWitness]'s callback fails with that exception in the state the
    callback left: nothing is stored and the cursor does not advance. *)
Theorem memoizedCompute_failure {T J} (type : Provable T J) (compute : M T)
    (s : State) (ref a k : nat) :
  Scope s ref a k →
  is_Some (arrays s !! a) →
  js_lookup (memoArray s a) k = None →
  (∀ e s1, compute s = (Throw e, s1) →
     memoizedCompute type compute s = (Throw e, s1))
  ∧ (∀ v e s1 s2, compute s = (Normal v, s1) →
       mapM Field_toConstant (toFields type v) s1 = (Throw e, s2) →
       memoizedCompute type compute s = (Throw e, s1)).
Proof.
  intros Hscope Harr Hslot. split.
  - intros e s1 Hc. rewrite (memoizedCompute_empty_unfold _ _ _ _ _ _ Hscope)
      by done.
    unfold bind. by rewrite Hc.
  - intros v e s1 s2 Hc Hf.
    rewrite (memoizedCompute_empty_unfold _ _ _ _ _ _ Hscope) by done.
    pose proof (mapM_toConstant_state (toFields type v) s1) as Hst.
    rewrite Hf in Hst. simpl in Hst. subst s2.
    unfold bind. by rewrite Hc, Hf.
Qed.

Lemma memoizedCompute_failure_witness :
  memoizedCompute FieldType (throw (Error "no value")) recording
  = (Throw (Error "no value"), recording)
  ∧ memoizedCompute FieldType (ret (Var 3)) recording
    = (Throw (Error "can't evaluate a variable outside the prover"), recording).
Proof.
  destruct (memoizedCompute_failure FieldType (throw (Error "no value"))
              recording 0 0 0) as [H1 _].
  { split; [reflexivity|]. eexists. by repeat split. }
  { by eexists. }
  { reflexivity. }
  destruct (memoizedCompute_failure FieldType (ret (Var 3))
              recording 0 0 0) as [_ H2].
  { split; [reflexivity|]. eexists. by repeat split. }
  { by eexists. }
  { reflexivity. }
  split.
  - apply H1. reflexivity.
  - eapply H2; reflexivity.
Defined.

Lemma length_js_assign {A} (l : list (option A)) (i : nat) (x : A) :
  length (js_assign l i x) = length l `max` S i.
Proof.
  unfold js_assign. destruct (decide (i < length l)).
  - rewrite length_insert. lia.
  - rewrite !length_app, length_replicate. simpl. lia.
Qed.

(** X12. The cache grows without holes, for a callback that leaves the
    context stacks and the memoization store as it found them (so one that
    makes no [memoizeWitness] call of its own). When every slot of the
    memoized array is filled and the cursor is not past its end, a call of
    [memoizeWitness]'s callback that returns leaves an array with every
    slot filled and the cursor one further, still not past the end: the
    array is as long as before when the slot was filled, and one longer
    when the cursor stood at the end. *)
Theorem memoizedCompute_dense {T J} (type : Provable T J) (compute : M T)
    (s s' : State) (ref a k : nat) (x : T) :
  Scope s ref a k →
  k ≤ length (memoArray s a) →
  Forall is_Some (memoArray s a) →
  Quiet compute →
  memoizedCompute type compute s = (Normal x, s') →
  Scope s' ref a (k + 1)
  ∧ k + 1 ≤ length (memoArray s' a)
  ∧ Forall is_Some (memoArray s' a)
  ∧ length (memoArray s' a) = length (memoArray s a) `max` (k + 1).
Proof.
  intros Hscope Hk Hdense Hquiet Hrun.
  destruct (js_lookup (memoArray s a) k) as [slot|] eqn:Hslot.
  - rewrite (memoizedCompute_populated type compute s ref a k slot) in Hrun
      by done.
    injection Hrun as <- <-.
    assert (k < length (memoArray s a)).
    { unfold js_lookup in Hslot.
      destruct (memoArray s a !! k) eqn:E; [|done].
      by apply lookup_lt_Some in E. }
    split; [by eapply Scope_advance|].
    change (memoArray (set_contexts (alter advance ref (contexts s)) s) a)
      with (memoArray s a).
    split; [lia|]. split; [done|]. lia.
  - assert (Hend : k = length (memoArray s a)).
    { destruct (decide (k < length (memoArray s a))) as [Hlt|]; [|lia].
      destruct (lookup_lt_is_Some_2 _ _ Hlt) as [o Ho].
      pose proof (Forall_lookup_1 _ _ _ _ Hdense Ho) as [y ->].
      unfold js_lookup in Hslot. by rewrite Ho in Hslot. }
    destruct (memoizedCompute_empty type compute s s' ref a k x)
      as (v & s1 & fields & [l Harr] & Hv & Hf & -> & ->); [done..|].
    destruct (Hquiet s) as (Hq1 & Hq2 & Hq3 & Hq4). rewrite Hv in *.
    simpl in Hq1, Hq2, Hq3, Hq4.
    set (slot := {| m_fields := fields; m_aux := toAuxiliary type (Some v) |}).
    assert (Hl : memoArray
                   (set_contexts (alter advance ref (contexts s1))
                      (set_arrays
                         (alter (λ l, js_assign l k slot) a (arrays s1)) s1)) a
                 = js_assign (memoArray s a) k slot).
    { unfold memoArray. simpl. by rewrite list_lookup_alter_eq, Hq4, Harr. }
    split; [apply (Scope_advance s); [done| |]; simpl; congruence|].
    rewrite Hl, length_js_assign. split; [lia|]. split; [|lia].
    unfold js_assign. rewrite decide_False by lia.
    rewrite Hend, Nat.sub_diag. simpl.
    apply Forall_app. split; [done|]. by repeat constructor.
Qed.

Lemma memoizedCompute_dense_witness :
  ∃ s', memoizedCompute FieldType Field_random recording
        = (Normal (Constant 1000), s')
        ∧ Forall is_Some (memoArray s' 0)
        ∧ length (memoArray s' 0) = 1.
Proof.
  exists (memoizedCompute FieldType Field_random recording).2.
  split; [reflexivity|].
  destruct (memoizedCompute_dense FieldType Field_random recording
              (memoizedCompute FieldType Field_random recording).2
              0 0 0 (Constant 1000)) as (_ & _ & Hd & Hl).
  - split; [reflexivity|]. eexists. by repeat split.
  - simpl. lia.
  - constructor.
  - apply Quiet_Field_random.
  - reflexivity.
  - split; [exact Hd | exact Hl].
Defined.

(** ** The blinding value *)

Lemma getBlindingValue_no_context (s : State) :
  memoizationContext s = [] → getBlindingValue s = Field_random s.
Proof.
  intros H. unfold getBlindingValue, bind, memoizationContext_has, gets.
  by rewrite H.
Qed.

(** X13. Outside every memoization scope nothing is remembered: [n] calls
    of [getBlindingValue] return the next [n] values of the random source,
    in order, and leave the source [n] draws further. *)
Theorem getBlindingValue_without_context (n : nat) (s : State) :
  memoizationContext s = [] →
  mapM (λ _ : unit, getBlindingValue) (replicate n tt) s
  = (Normal ((λ i, Constant (randomSource s i)) <$> seq (randomDrawn s) n),
     set_randomDrawn (randomDrawn s + n) s).
Proof.
  revert s. induction n as [|n IH]; intros s Hs.
  - simpl. unfold ret. rewrite Nat.add_0_r. by destruct s.
  - simpl. unfold bind at 1. rewrite getBlindingValue_no_context by done.
    unfold Field_random. unfold bind at 1.
    rewrite IH by done. unfold ret.
    f_equal. unfold set_randomDrawn. simpl. f_equal. lia.
Qed.

Lemma getBlindingValue_without_context_witness :
  mapM (λ _ : unit, getBlindingValue) (replicate 3 tt) idle
  = (Normal [Constant 1000; Constant 1001; Constant 1002],
     set_randomDrawn 3 idle).
Proof.
  apply (getBlindingValue_without_context 3 idle). reflexivity.
Defined.

(** X14. Inside a memoization scope [getBlindingValue] always returns, and
    it leaves the cursor, the memoized array and both context stacks as
    they are: it does not disturb the slots [memoizeWitness] fills. *)
Theorem getBlindingValue_keeps_cursor (s : State) (ref a k : nat) :
  Scope s ref a k →
  ∃ x s', getBlindingValue s = (Normal x, s')
          ∧ Scope s' ref a k
          ∧ arrays s' = arrays s
          ∧ snarkContext s' = snarkContext s
          ∧ memoizationContext s' = memoizationContext s.
Proof.
  intros (Hget & c & Href & Ha & Hk).
  unfold getBlindingValue, bind, memoizationContext_has, gets,
    memoizationContext_get, deref.
  rewrite (Context_get_has _ _ Hget). simpl. rewrite Hget, Href.
  destruct (blindingValue c) as [x|] eqn:Hb.
  - exists x, s. repeat split; try done. by exists c.
  - unfold Field_random, update, modify, ret.
    eexists _, _. split; [reflexivity|].
    split; [|done]. split; [done|]. simpl.
    eexists. rewrite list_lookup_alter_eq, Href. by repeat split.
Qed.

Lemma getBlindingValue_keeps_cursor_witness :
  ∃ x s', getBlindingValue recording = (Normal x, s')
          ∧ Scope s' 0 0 0
          ∧ arrays s' = arrays recording
          ∧ snarkContext s' = snarkContext recording
          ∧ memoizationContext s' = memoizationContext recording.
Proof.
  apply (getBlindingValue_keeps_cursor recording 0 0 0).
  split; [reflexivity|]. eexists. by repeat split.
Defined.

(** X15. For a callback that leaves the context stacks and the memoization
    store as it found them (so one that calls neither [memoizeWitness] nor
    [getBlindingValue]), a call of [memoizeWitness]'s callback that returns
    moves the cursor of the context object by one and leaves its blinding
    value and its array reference as they are, whether the slot was filled
    or not. *)
Theorem memoizedCompute_keeps_blindingValue {T J} (type : Provable T J)
    (compute : M T) (s s' : State) (ref : nat) (c : MemoizationContext)
    (x : T) :
  Context_get (memoizationContext s) = Some ref →
  contexts s !! ref = Some c →
  Quiet compute →
  memoizedCompute type compute s = (Normal x, s') →
  contexts s' !! ref
  = Some {| memoized := memoized c; currentIndex := currentIndex c + 1;
            blindingValue := blindingValue c |}.
Proof.
  intros Hget Href Hquiet Hrun.
  assert (Hscope : Scope s ref (memoized c) (currentIndex c))
    by (split; [done|]; by exists c).
  destruct (js_lookup (memoArray s (memoized c)) (currentIndex c))
    as [slot|] eqn:Hslot.
  - rewrite (memoizedCompute_populated type compute s ref
               (memoized c) (currentIndex c) slot) in Hrun by done.
    injection Hrun as <- <-. simpl.
    by rewrite list_lookup_alter_eq, Href.
  - destruct (memoizedCompute_empty type compute s s' ref
                (memoized c) (currentIndex c) x)
      as (v & s1 & fields & _ & Hv & _ & _ & ->); [done..|].
    destruct (Hquiet s) as (_ & _ & Hq3 & _). rewrite Hv in Hq3.
    simpl in Hq3. simpl. by rewrite list_lookup_alter_eq, Hq3, Href.
Qed.

Lemma memoizedCompute_keeps_blindingValue_witness :
  contexts (memoizedCompute FieldType Field_random recording).2 !! 0
  = Some {| memoized := 0; currentIndex := 1; blindingValue := None |}.
Proof.
  apply (memoizedCompute_keeps_blindingValue FieldType Field_random recording
           (memoizedCompute FieldType Field_random recording).2 0
           {| memoized := 0; currentIndex := 0; blindingValue := None |}
           (Constant 1000)).
  - reflexivity.
  - reflexivity.
  - apply Quiet_Field_random.
  - reflexivity.
Defined.

(** ** More about the analyzer *)

Lemma Uint8Array_congruent (bytes bytes' : list Z) :
  Forall2 (λ b b', b `mod` 256 = b' `mod` 256)%Z bytes bytes' →
  Uint8Array bytes = Uint8Array bytes'.
Proof.
  induction 1 as [|b b' bytes bytes' Hb _ IH]; [done|].
  unfold Uint8Array in *. rewrite !fmap_cons. by rewrite Hb, IH.
Qed.

(** X16. [gatesFromJson] reads every coefficient through a [Uint8Array]:
    only the residues modulo 256 of the numbers matter. Two serialized
    systems with the same gate types, wires and public input size whose
    coefficient numbers agree modulo 256 decode to the same gates. *)
Theorem gatesFromJson_bytes_modulo (bytesToBigInt : list Z → N)
    (cs cs' : JsonConstraintSystem) :
  public_input_size cs = public_input_size cs' →
  Forall2 (λ g g', typ g = typ g' ∧ jwires g = jwires g'
                   ∧ Forall2 (Forall2 (λ b b', b `mod` 256 = b' `mod` 256)%Z)
                       (jcoeffs g) (jcoeffs g'))
    (gates cs) (gates cs') →
  gatesFromJson bytesToBigInt cs = gatesFromJson bytesToBigInt cs'.
Proof.
  intros Hsize Hgates. unfold gatesFromJson. rewrite Hsize. f_equal.
  induction Hgates as [|g g' gs gs' (Htyp & Hwires & Hcoeffs) _ IH]; [done|].
  rewrite !fmap_cons, IH, Htyp, Hwires. do 2 f_equal.
  clear -Hcoeffs.
  induction Hcoeffs as [|c c' cl cl' Hc _ IHc]; [done|].
  rewrite !fmap_cons, IHc. by rewrite (Uint8Array_congruent _ _ Hc).
Qed.

Lemma gatesFromJson_bytes_modulo_witness :
  gatesFromJson bytesToBigInt_le
    {| gates := [{| typ := "Generic"; jwires := [];
                    jcoeffs := [[257; -1]]%Z |}];
       public_input_size := 1 |}
  = gatesFromJson bytesToBigInt_le
      {| gates := [{| typ := "Generic"; jwires := [];
                      jcoeffs := [[1; 255]]%Z |}];
         public_input_size := 1 |}.
Proof.
  apply gatesFromJson_bytes_modulo.
  - reflexivity.
  - repeat constructor.
Defined.

(** What [snarkContext.runWith] does around a callback that leaves the
    context stack as it found it. *)
Lemma snarkContext_runWith_balanced {A} (overrides : SnarkContext) (f : M A)
    (s : State) :
  snarkContext (f (within overrides s)).2 = snarkContext (within overrides s) →
  snarkContext_runWith overrides f s
  = ((f (within overrides s)).1,
     set_snarkContext (snarkContext s) (f (within overrides s)).2).
Proof.
  intros Hbal. unfold snarkContext_runWith.
  rewrite (bind_Normal (snarkContext_enter overrides) _ s
             (within overrides s) (nextId s) eq_refl).
  unfold try_finally. destruct (f (within overrides s)) as [r s1].
  simpl in Hbal. unfold snarkContext_leave. rewrite Hbal. simpl.
  by rewrite decide_True.
Qed.

Lemma Snarky_constraintSystem_ext {X} (digestOf : list JsonGate → string)
    (f f' : M X) (s : State) :
  f (analysing s) = f' (analysing s) →
  Snarky_constraintSystem digestOf f (within analyzeFlags s)
  = Snarky_constraintSystem digestOf f' (within analyzeFlags s).
Proof.
  intros H. unfold Snarky_constraintSystem.
  set (m := modify _).
  rewrite !(bind_Normal m _ (within analyzeFlags s) (analysing s) tt eq_refl).
  by apply bind_ext_at.
Qed.

Lemma constraintSystem_ext {T} (bytesToBigInt : list Z → N)
    (digestOf : list JsonGate → string) (f f' : M T) (s : State) :
  f (analysing s) = f' (analysing s) →
  constraintSystem bytesToBigInt digestOf f s
  = constraintSystem bytesToBigInt digestOf f' s.
Proof.
  intros H. unfold constraintSystem, snarkContext_runWith.
  rewrite !(bind_Normal (snarkContext_enter analyzeFlags) _ s
              (within analyzeFlags s) (nextId s) eq_refl).
  unfold try_finally, bind.
  by rewrite (Snarky_constraintSystem_ext digestOf f f' s H).
Qed.

(** X17. When the analysed callback throws, [constraintSystem] leaves the
    analyzer's frame and the exception reaches the caller; no result is
    built. *)
Theorem constraintSystem_exception {T} (bytesToBigInt : list Z → N)
    (digestOf : list JsonGate → string) (f : M T) (s s1 : State) (e : Exn) :
  f (analysing s) = (Throw e, s1) →
  snarkContext s1 = snarkContext (analysing s) →
  constraintSystem bytesToBigInt digestOf f s
  = (Throw e, set_snarkContext (snarkContext s) s1).
Proof.
  intros Hf Hbal. unfold constraintSystem.
  assert (E : (r <- Snarky_constraintSystem digestOf f ;;
               ret {| cs_rows := a_rows r.1; cs_digest := a_digest r.1;
                      cs_result := r.2;
                      cs_gates := (gatesFromJson bytesToBigInt (a_json r.1)).2;
                      cs_publicInputSize :=
                        (gatesFromJson bytesToBigInt (a_json r.1)).1 |})
                (within analyzeFlags s)
              = (Throw e, s1)).
  { unfold Snarky_constraintSystem, bind, modify.
    change (set_snarky _ (within analyzeFlags s)) with (analysing s).
    by rewrite Hf. }
  rewrite snarkContext_runWith_balanced; rewrite E; [done|exact Hbal].
Qed.

Lemma constraintSystem_exception_witness :
  constraintSystem bytesToBigInt_le (λ g, pretty (length g))
    (_ <- emit sampleGate ;; _ <- witness BoolType (ret (Constant 1)) ;;
     @throw unit (Error "assertion failed")) proving
  = (Throw (Error "assertion failed"),
     set_snarkContext (snarkContext proving)
       ((_ <- emit sampleGate ;; _ <- witness BoolType (ret (Constant 1)) ;;
         @throw unit (Error "assertion failed")) (analysing proving)).2).
Proof.
  apply constraintSystem_exception.
  - reflexivity.
  - reflexivity.
Defined.

(** X18. The analysis does not depend on witness callbacks: a [witness]
    call the analysed callback makes first never calls its [compute], so
    [constraintSystem] gives the same result whatever [compute] is. *)
Theorem constraintSystem_ignores_compute {T J X} (bytesToBigInt : list Z → N)
    (digestOf : list JsonGate → string) (type : Provable T J)
    (compute compute' : M T) (k : T → M X) (s : State) :
  inBlock s = false →
  constraintSystem bytesToBigInt digestOf (x <- witness type compute ;; k x) s
  = constraintSystem bytesToBigInt digestOf
      (x <- witness type compute' ;; k x) s.
Proof.
  intros Hb. apply constraintSystem_ext, bind_ext_at.
  assert (Hdirect : direct (analysing s) = false).
  { apply direct_false; [reflexivity|].
    unfold inBlock, currentFrame in *. simpl.
    by destruct (inWitnessBlock _). }
  by rewrite !witness_unevaluated.
Qed.

Lemma constraintSystem_ignores_compute_witness :
  constraintSystem bytesToBigInt_le (λ g, pretty (length g))
    (x <- witness FieldType (throw (Error "never called")) ;; ret x) idle
  = constraintSystem bytesToBigInt_le (λ g, pretty (length g))
      (x <- witness FieldType Field_random ;; ret x) idle.
Proof.
  apply (constraintSystem_ignores_compute bytesToBigInt_le
           (λ g, pretty (length g)) FieldType
           (throw (Error "never called")) Field_random (λ x, ret x) idle).
  reflexivity.
Defined.

(** ** Running provable code *)

(** X19. [runAndCheck] and [runUnchecked] hand the callback to the
    backend's primitive inside a frame in which [inCheckedComputation()]
    holds. When the primitive leaves the context stack as it found it, the
    frame is left on both completions of the primitive, and its
    completion, an exception included, is the completion of the call. *)
Theorem runAndCheck_frame (backend : M unit → M unit) (f : M unit)
    (s : State) :
  snarkContext (backend f (within checkedFlags s)).2
  = snarkContext (within checkedFlags s) →
  checked (within checkedFlags s) = true
  ∧ runAndCheck backend f s
    = ((backend f (within checkedFlags s)).1,
       set_snarkContext (snarkContext s)
         (backend f (within checkedFlags s)).2)
  ∧ runUnchecked backend f s
    = ((backend f (within checkedFlags s)).1,
       set_snarkContext (snarkContext s)
         (backend f (within checkedFlags s)).2).
Proof.
  intros Hbal. split; [|split].
  - reflexivity.
  - unfold runAndCheck. by apply snarkContext_runWith_balanced.
  - unfold runUnchecked. by apply snarkContext_runWith_balanced.
Qed.

Lemma runAndCheck_frame_witness :
  runAndCheck (λ f, f)
    (_ <- witness FieldType (throw (Error "no witness")) ;; ret tt) idle
  = (Throw (Error "no witness"), set_nextId 2 idle).
Proof.
  destruct (runAndCheck_frame (λ f, f)
              (_ <- witness FieldType (throw (Error "no witness")) ;; ret tt)
              idle)
    as (_ & H & _).
  - reflexivity.
  - rewrite H. reflexivity.
Defined.

(** ** The oracle of the foreign-field unit test *)

Lemma signedSum_congruent (p : Z) (signs xs : list Z) :
  ∀ t t' : Z, (t `mod` p = t' `mod` p)%Z →
    (signedSum t signs xs `mod` p = signedSum t' signs xs `mod` p)%Z.
Proof.
  revert xs. induction signs as [|sign signs IH]; intros xs t t' H; [done|].
  destruct xs as [|x xs]; [done|]. simpl. apply IH.
  by rewrite <- Zplus_mod_idemp_l, H, Zplus_mod_idemp_l.
Qed.

Lemma sum_loop_signed (p : Z) (xs signs : list Z) :
  Forall (λ sign, sign = 1 ∨ sign = -1)%Z signs →
  ∀ (i : nat) (total : Z), i + length signs < length xs →
    ∃ r, sum_loop (add_mod p) (sub_mod p) xs signs i total = Some r
         ∧ (r `mod` p = signedSum total signs (drop (S i) xs) `mod` p)%Z.
Proof.
  induction 1 as [|sign signs Hsign _ IH]; intros i total Hlen.
  - by exists total.
  - simpl in Hlen. simpl.
    destruct (lookup_lt_is_Some_2 xs (i + 1) ltac:(lia)) as [x Hx].
    rewrite Hx. simpl.
    replace (i + 1) with (S i) in Hx by lia.
    rewrite (drop_S _ _ _ Hx). simpl.
    destruct (IH (S i) (if decide (sign = 1%Z) then add_mod p total x
                        else sub_mod p total x) ltac:(lia)) as (r & Hr & Hmod).
    exists r. split; [done|]. rewrite Hmod.
    apply signedSum_congruent.
    destruct Hsign as [-> | ->]; simpl; unfold add_mod, sub_mod;
      rewrite Zmod_mod; f_equal; lia.
Qed.

(** X21. Over a field whose [add] and [sub] are addition and subtraction
    of residues modulo [p], [sum] of [x₀, x₁, …] with one sign per further
    operand returns a number congruent modulo [p] to
    [x₀ + Σ signᵢ · xᵢ₊₁]; operands beyond the signs are not read. *)
Theorem sum_signed (p x0 : Z) (xs signs : list Z) :
  Forall (λ sign, sign = 1 ∨ sign = -1)%Z signs →
  length signs ≤ length xs →
  ∃ r, sum (add_mod p) (sub_mod p) (x0 :: xs) signs = Some r
       ∧ (r `mod` p = signedSum x0 signs xs `mod` p)%Z.
Proof.
  intros Hsigns Hlen. unfold sum. simpl.
  destruct (sum_loop_signed p (x0 :: xs) signs Hsigns 0 x0) as (r & Hr & Hmod).
  - simpl. lia.
  - exists r. split; [done|]. by rewrite Hmod.
Qed.

Lemma sum_signed_witness :
  ∃ r, sum (add_mod 7) (sub_mod 7) [5; 4; 6; 3]%Z [1; -1]%Z = Some r
       ∧ (r `mod` 7 = signedSum 5 [1; -1] [4; 6; 3] `mod` 7)%Z.
Proof.
  apply (sum_signed 7 5 [4; 6; 3]%Z [1; -1]%Z).
  - constructor; [by left|]. constructor; [by right|]. constructor.
  - simpl. lia.
Defined.

Lemma sum_loop_undefined (F_add F_sub : Z → Z → Z) (xs signs : list Z) :
  ∀ (i : nat) (total : Z), i < length xs →
    sum_loop F_add F_sub xs signs i total = None
    ↔ length xs ≤ i + length signs.
Proof.
  induction signs as [|sign signs IH]; intros i total Hi; simpl.
  - split; [done|lia].
  - destruct (xs !! (i + 1)) as [x|] eqn:Hx; simpl.
    + apply lookup_lt_Some in Hx. rewrite IH by lia. lia.
    + apply lookup_ge_None in Hx. split; [lia|done].
Qed.

(** X22. Whatever the field is, [sum] has no result exactly when there are
    not more operands than signs: it then reads an operand that is
    [undefined]. *)
Theorem sum_undefined (F_add F_sub : Z → Z → Z) (xs signs : list Z) :
  sum F_add F_sub xs signs = None ↔ length xs ≤ length signs.
Proof.
  unfold sum. destruct xs as [|x0 xs]; simpl.
  - split; [lia|done].
  - rewrite sum_loop_undefined by (simpl; lia). simpl. lia.
Qed.
